(** * Zillow-Scraper: the area partitioner and the collector of
    [Zillow_Scraper.py], embedded in Rocq.

    Python's [float] is IEEE-754 binary64, which is exactly Rocq's primitive
    [float]: the partitioner is embedded over primitive floats, with
    [int(x)], [float(i)], [abs], [max] and [range] written out.  Python's
    [int] is unbounded and is embedded as [Z].  Dictionaries are [gmap]s,
    the set of seen identifiers is a [gset].  The coordinates are floats, as
    the signatures annotate them.  The listing-service client [pyzill] is a
    parameter that threads the state of the outside world.  [print] and
    [time.sleep] leave no trace in the values computed and are left out. *)

From Stdlib Require Import ZArith QArith Qpower Floats Lia.
From stdpp Require Import gmap strings list.

Set Warnings "-inexact-float".
Set Default Proof Using "Type".

(** ** Python values and exceptions *)

(** The exceptions the modelled code can raise outside a [try]. *)
Inductive exn : Type :=
  | OverflowError   (* int(inf) *)
  | ValueError.     (* int(nan) *)

Inductive result (A : Type) : Type :=
  | Ok (a : A)
  | Raise (e : exn).
Arguments Ok {A} a.
Arguments Raise {A} e.

#[global] Instance result_ret : MRet result := λ A a, Ok a.
#[global] Instance result_bind : MBind result := λ A B k r,
  match r with
  | Ok a => k a
  | Raise e => Raise e
  end.

(** What a call has appended when it returns; nothing when it raises. *)
Definition returned {A : Type} (r : result (list A)) : list A :=
  match r with
  | Ok l => l
  | Raise _ => []
  end.

(** The exponent function of binary64. *)
Abbreviation fexp64 := (SpecFloat.fexp prec emax).

Module Py.

(** [float(i)] for a Python [int]: the nearest binary64 value, ties to
    even.  It is what [i * x] and [x / i] do to an [int] operand. *)
Definition float_of_int (i : Z) : float :=
  SF2Prim (binary_normalize prec emax i 0 false).

(** The integer part of a finite float, rounded towards zero. *)
Definition trunc (x : float) : Z :=
  match Prim2SF x with
  | S754_finite s m e =>
      cond_Zopp s
        (match e with
         | Z0 => Z.pos m
         | Z.pos p => Z.pos m * 2 ^ Z.pos p
         | Z.neg p => Z.pos m / 2 ^ Z.pos p
         end)%Z
  | _ => 0%Z
  end.

(** [int(x)]: truncation; [OverflowError] on an infinity, [ValueError]
    on a NaN. *)
Definition int_of_float (x : float) : result Z :=
  match Prim2SF x with
  | S754_infinity _ => Raise OverflowError
  | S754_nan => Raise ValueError
  | _ => Ok (trunc x)
  end.

Definition is_finite (x : float) : bool :=
  match Prim2SF x with
  | S754_zero _ | S754_finite _ _ _ => true
  | _ => false
  end.

(** The rational number a finite float stands for. *)
Definition value (x : float) : Q :=
  match Prim2SF x with
  | S754_finite s m e => inject_Z (cond_Zopp s (Z.pos m)) * 2 ^ e
  | _ => 0
  end%Q.

(** A float that is finite and of magnitude below [2^B]. *)
Definition below (B : Z) (x : spec_float) : Prop :=
  match x with
  | S754_zero _ => True
  | S754_finite _ m e => (Z.pos (digits2_pos m) + e ≤ B)%Z
  | _ => False
  end.

(** [range(n)]: 0, 1, ..., n-1, empty when [n <= 0]. *)
Definition range (n : Z) : list Z := seqZ 0 n.

End Py.

(** ** The scraper object (lines 9-14) *)

Record ZillowScraper : Type := {
  wait_time_range : Z * Z;
  categories : list string;
  MAX_RESULTS_PER_QUERY : Z;
  MIN_ZOOM_LEVEL : Z
}.

(** [__init__] *)
Definition init (wait_time_range : Z * Z) : ZillowScraper :=
  {| wait_time_range := wait_time_range;
     categories := ["for_sale"; "for_rent"; "sold"];
     MAX_RESULTS_PER_QUERY := 500;
     MIN_ZOOM_LEVEL := 15 |}.

(** ** The area partitioner (lines 51-83) *)

(** The dictionary built at lines 73-79, with its five fixed keys. *)
Record Section_ : Type := {
  ne_lat : float;
  sw_lat : float;
  ne_long : float;
  sw_long : float;
  zoom : Z
}.

Section Partitioner.
Local Open Scope float_scope.
Import Py.

(** Lines 58-59. *)
Definition distance (ne sw : float) : float := abs (ne - sw).

(** Lines 63-64: [max(1, int(distance / 0.01))]. *)
Definition sections_count (distance : float) : result Z :=
  n ← int_of_float (distance / 0.01);
  Ok (Z.max 1 n).

(** Lines 73-79: the section of row [i] and column [j]. *)
Definition section_at (self : ZillowScraper) (sw_lat sw_long lat_step long_step : float)
    (i j : Z) : Section_ :=
  {| ne_lat := sw_lat + float_of_int (i + 1) * lat_step;
     sw_lat := sw_lat + float_of_int i * lat_step;
     ne_long := sw_long + float_of_int (j + 1) * long_step;
     sw_long := sw_long + float_of_int j * long_step;
     zoom := MIN_ZOOM_LEVEL self |}.

Definition calculate_zoom_sections (self : ZillowScraper)
    (ne_lat ne_long sw_lat sw_long : float) (initial_zoom : Z)
    : result (list Section_) :=
  let lat_distance := distance ne_lat sw_lat in
  let long_distance := distance ne_long sw_long in
  sections_lat ← sections_count lat_distance;
  sections_long ← sections_count long_distance;
  let lat_step := lat_distance / float_of_int sections_lat in
  let long_step := long_distance / float_of_int sections_long in
  Ok (foldl (λ sections i,
             foldl (λ sections j,
                    sections ++ [section_at self sw_lat sw_long lat_step long_step i j])
                   sections (range sections_long))
            [] (range sections_lat)).

End Partitioner.

(** ** Listing records (read-only to the scraper) *)

(** The values an identifier takes in the listing service's JSON: [null]
    (also what [dict.get] gives for a missing key), an integer or a string.
    On these, Python's [==] and [hash] are those of the values themselves.
    Containers, which a Python set cannot hold, and numbers that compare
    equal across types are outside the model. *)
Inductive pyval : Type :=
  | PyNone
  | PyInt (z : Z)
  | PyStr (s : string).

#[global] Instance pyval_eq_dec : EqDecision pyval.
Proof. solve_decision. Defined.

#[global] Instance pyval_countable : Countable pyval.
Proof.
  refine (inj_countable'
    (λ v, match v with
          | PyNone => inl ()
          | PyInt z => inr (inl z)
          | PyStr s => inr (inr s)
          end)
    (λ c, match c with
          | inl () => PyNone
          | inr (inl z) => PyInt z
          | inr (inr s) => PyStr s
          end) _).
  by intros [].
Defined.

(** Python's truth value: [None], [0] and the empty string are false. *)
Definition truthy (v : pyval) : bool :=
  match v with
  | PyNone => false
  | PyInt z => negb (z =? 0)%Z
  | PyStr s => negb (String.eqb s "")
  end.

Abbreviation ListingRecord := (gmap string pyval).
Abbreviation ResultSet := (gmap string (list ListingRecord)).

(** [result.get('zpid')] *)
Definition zpid_of (result : ListingRecord) : pyval :=
  default PyNone (result !! "zpid").

(** ** Deduplication (lines 147-154 of [get_all_results]) *)

Definition dedupe_step (st : gset pyval * list ListingRecord) (result : ListingRecord)
    : gset pyval * list ListingRecord :=
  let '(seen_zpids, unique_results) := st in
  let zpid := zpid_of result in
  if truthy zpid && bool_decide (zpid ∉ seen_zpids)
  then ({[zpid]} ∪ seen_zpids, unique_results ++ [result])
  else st.

Definition dedupe (records : list ListingRecord) : list ListingRecord :=
  (foldl dedupe_step (∅, []) records).2.

(** The rule of the specification, read off its words: a record is kept
    iff its identifier is non-empty and has not occurred earlier in the
    sequence.  [earlier] holds the identifiers of all the records walked so
    far, kept or not. *)
Fixpoint first_occurrences (earlier : list pyval) (records : list ListingRecord)
    : list ListingRecord :=
  match records with
  | [] => []
  | r :: rest =>
      (if truthy (zpid_of r) && bool_decide (zpid_of r ∉ earlier) then [r] else [])
      ++ first_occurrences (earlier ++ [zpid_of r]) rest
  end.

(** A sequence that deduplication leaves alone: identifiers non-empty and
    pairwise distinct. *)
Definition unique_ids (records : list ListingRecord) : Prop :=
  Forall (λ r, truthy (zpid_of r) = true) records ∧ NoDup (zpid_of <$> records).

(** ** The collector (lines 89-159) *)

(** What a call of the listing-service client does: it raises, or it
    returns a dictionary, of which the scraper reads the result lists. *)
Inductive outcome : Type :=
  | Raised
  | Returned (results : gmap string (list ListingRecord)).

(** [results.get('mapResults', [])]; nothing on a failure. *)
Definition records_of (o : outcome) : list ListingRecord :=
  match o with
  | Raised => []
  | Returned results => default [] (results !! "mapResults")
  end.

Section Collector.
(** The state of the remote service and of the network: a call may answer
    differently each time it is made. *)
Context {World : Type}.

(** [pyzill.for_sale(pagination, ne_lat, ne_long, sw_lat, sw_long, zoom, proxy)]
    and its two siblings. *)
Definition search : Type :=
  Z → float → float → float → float → Z → option string → World → outcome * World.

Record pyzill_module : Type := {
  for_sale : search;
  for_rent : search;
  sold : search
}.

Context (pyzill : pyzill_module) (self : ZillowScraper) (proxy_url : option string).

(** Lines 95-106, the body of the [try] up to the binding of [results].
    For a category outside the three, [results] is unbound at line 108:
    the [UnboundLocalError] is an exception like the client's. *)
Definition fetch (box : Section_) (zoom_value : Z) (category : string) (w : World)
    : outcome * World :=
  if decide (category = "for_sale") then
    for_sale pyzill 1%Z (ne_lat box) (ne_long box) (sw_lat box) (sw_long box) zoom_value proxy_url w
  else if decide (category = "for_rent") then
    for_rent pyzill 1%Z (ne_lat box) (ne_long box) (sw_lat box) (sw_long box) zoom_value proxy_url w
  else if decide (category = "sold") then
    sold pyzill 1%Z (ne_lat box) (ne_long box) (sw_lat box) (sw_long box) zoom_value proxy_url w
  else (Raised, w).

(** Lines 94-115. *)
Definition get_results_for_box (box : Section_) (zoom_value : Z) (category : string)
    (w : World) : list ListingRecord * World :=
  match fetch box zoom_value category w with
  | (Returned results, w) =>
      let map_results := default [] (results !! "mapResults") in
      (map_results, w)
  | (Raised, w) => ([], w)   (* except Exception: return [] *)
  end.

(** Line 125: [{category: [] for category in self.categories}]. *)
Definition empty_results : ResultSet :=
  foldl (λ all_results category, <[category := []]> all_results) ∅ (categories self).

(** Lines 133-141, one turn of the inner loop. *)
Definition collect_category (section : Section_) (st : ResultSet * World)
    (category : string) : ResultSet * World :=
  let '(all_results, w) := st in
  let '(results, w) := get_results_for_box section (zoom section) category w in
  match results with
  | [] => (all_results, w)
  | _ => (alter (λ l, l ++ results) category all_results, w)
  end.

(** Lines 128-141. *)
Definition collect_sections (sections : list Section_) (st : ResultSet * World)
    : ResultSet * World :=
  foldl (λ st section, foldl (collect_category section) st (categories self))
        st sections.

(** Lines 145-157. *)
Definition remove_duplicates (all_results : ResultSet) : ResultSet :=
  foldl (λ all_results category,
         <[category := dedupe (all_results !!! category)]> all_results)
        all_results (categories self).

Definition get_all_results (ne_lat ne_long sw_lat sw_long : float) (initial_zoom : Z)
    (w : World) : result (ResultSet * World) :=
  sections ← calculate_zoom_sections self ne_lat ne_long sw_lat sw_long initial_zoom;
  let all_results := empty_results in
  let '(all_results, w) := collect_sections sections (all_results, w) in
  let all_results := remove_duplicates all_results in
  Ok (all_results, w).

(** The calls of one run in the order the loops make them, and what the
    client answered to each. *)
Definition calls (sections : list Section_) : list (Section_ * string) :=
  section ← sections; (λ category, (section, category)) <$> categories self.

Fixpoint fetch_log (pairs : list (Section_ * string)) (w : World)
    : list (string * outcome) :=
  match pairs with
  | [] => []
  | (section, category) :: pairs =>
      let '(o, w) := fetch section (zoom section) category w in
      (category, o) :: fetch_log pairs w
  end.

(** The records the calls of [category] that did not fail returned. *)
Definition accumulated (log : list (string * outcome)) (category : string)
    : list ListingRecord :=
  '(c, o) ← log; if decide (c = category) then records_of o else [].

End Collector.

(** ** Inputs for the examples *)

(** A record that only holds its identifier. *)
Definition record_with_id (zpid : pyval) : ListingRecord := {[ "zpid" := zpid ]}.

(** A client whose state counts the calls made so far: the first call
    raises, every later call returns one listing, numbered by the call. *)
Definition flaky_search : @search nat :=
  λ _ _ _ _ _ _ _ n,
    (match n with
     | O => Raised
     | S _ => Returned {[ "mapResults" := [record_with_id (PyInt (Z.of_nat n))] ]}
     end, S n).

Definition flaky_pyzill : @pyzill_module nat :=
  {| for_sale := flaky_search; for_rent := flaky_search; sold := flaky_search |}.

(** ** The loops of the partitioner *)

Section Loops.
Context {A : Type}.
Implicit Types (g : Z → Z → A) (acc : list A).

Lemma inner_loop (f : Z → A) acc (js : list Z) :
  foldl (λ sections j, sections ++ [f j]) acc js = acc ++ (f <$> js).
Proof.
  revert acc. induction js as [|j js IH]; intros acc; simpl.
  - by rewrite app_nil_r.
  - rewrite IH. by rewrite <- app_assoc.
Qed.

Lemma outer_loop g acc (il jl : list Z) :
  foldl (λ sections i, foldl (λ sections j, sections ++ [g i j]) sections jl) acc il
  = acc ++ (il ≫= λ i, g i <$> jl).
Proof.
  revert acc. induction il as [|i il IH]; intros acc; simpl.
  - by rewrite app_nil_r.
  - rewrite IH, inner_loop. by rewrite <- app_assoc.
Qed.

(** The rows [m, m+1, ...] laid out one after the other. *)
Lemma grid_length g (m rows cols : Z) :
  (0 ≤ rows)%Z → (0 ≤ cols)%Z →
  Z.of_nat (length (seqZ m rows ≫= λ i, g i <$> seqZ 0 cols)) = (rows * cols)%Z.
Proof.
  intros Hr Hc. revert m.
  pattern rows. apply natlike_ind; [| |exact Hr].
  - intros m. simpl. lia.
  - intros r Hr0 IH m. rewrite (seqZ_cons m) by lia. simpl.
    rewrite length_app, length_fmap. rewrite length_seqZ.
    replace (Z.pred (Z.succ r)) with r by lia.
    rewrite Nat2Z.inj_add, IH. lia.
Qed.

Lemma grid_lookup g (m rows cols i j : Z) :
  (0 ≤ i < rows)%Z → (0 ≤ j < cols)%Z →
  (seqZ m rows ≫= λ i, g i <$> seqZ 0 cols) !! Z.to_nat (i * cols + j)
  = Some (g (m + i)%Z j).
Proof.
  intros Hi Hj. assert (Hr : (0 ≤ rows)%Z) by lia. revert m i Hi.
  pattern rows. apply natlike_ind; [| |exact Hr].
  - intros; lia.
  - intros r Hr0 IH m i Hi. rewrite (seqZ_cons m) by lia. simpl.
    replace (Z.pred (Z.succ r)) with r by lia.
    destruct (decide (i = 0%Z)) as [->|Hne].
    + rewrite lookup_app_l.
      2:{ rewrite length_fmap. rewrite length_seqZ. lia. }
      rewrite list_lookup_fmap.
      rewrite (lookup_seqZ_lt 0 cols) by lia.
      simpl. do 2 f_equal; lia.
    + rewrite lookup_app_r.
      2:{ rewrite length_fmap. rewrite length_seqZ. nia. }
      rewrite length_fmap. rewrite length_seqZ.
      replace (Z.to_nat (i * cols + j) - Z.to_nat cols)%nat
        with (Z.to_nat ((i - 1) * cols + j)) by nia.
      rewrite IH by lia. do 2 f_equal; lia.
Qed.

Lemma range_grid_lookup g (rows cols i j : Z) :
  (0 ≤ i < rows)%Z → (0 ≤ j < cols)%Z →
  (Py.range rows ≫= λ i, g i <$> Py.range cols) !! Z.to_nat (i * cols + j)
  = Some (g i j).
Proof.
  intros Hi Hj. unfold Py.range.
  rewrite (grid_lookup g 0 rows cols i j Hi Hj). by rewrite Z.add_0_l.
Qed.

Lemma range_grid_length g (rows cols : Z) :
  (0 ≤ rows)%Z → (0 ≤ cols)%Z →
  Z.of_nat (length (Py.range rows ≫= λ i, g i <$> Py.range cols)) = (rows * cols)%Z.
Proof. apply grid_length. Qed.

End Loops.

(** ** Facts about the partitioner *)

Section PartitionerFacts.
Local Open Scope float_scope.
Import Py.

Lemma int_of_float_finite x :
  is_finite x = true → int_of_float x = Ok (trunc x).
Proof. unfold is_finite, int_of_float. by destruct (Prim2SF x). Qed.

Lemma int_of_float_Ok x n :
  int_of_float x = Ok n → is_finite x = true ∧ n = trunc x.
Proof.
  unfold is_finite, int_of_float.
  destruct (Prim2SF x); intros H; simplify_eq; done.
Qed.

Lemma sections_count_finite d :
  is_finite (d / 0.01) = true → sections_count d = Ok (Z.max 1 (trunc (d / 0.01))).
Proof. intros H. unfold sections_count. by rewrite int_of_float_finite. Qed.

Lemma sections_count_Ok d n :
  sections_count d = Ok n →
  is_finite (d / 0.01) = true ∧ n = Z.max 1 (trunc (d / 0.01)).
Proof.
  unfold sections_count. destruct (int_of_float _) as [k|] eqn:E; [|done].
  apply int_of_float_Ok in E as [? ->]. intros [= <-]. done.
Qed.

Context (self : ZillowScraper) (ne_lat ne_long sw_lat sw_long : float)
        (initial_zoom : Z).

Let lat_distance := distance ne_lat sw_lat.
Let long_distance := distance ne_long sw_long.
Let rows := Z.max 1 (trunc (lat_distance / 0.01)).
Let columns := Z.max 1 (trunc (long_distance / 0.01)).
Let lat_step := lat_distance / float_of_int rows.
Let long_step := long_distance / float_of_int columns.

(** The two loops, once both counts are there. *)
Lemma calculate_zoom_sections_finite :
  is_finite (lat_distance / 0.01) = true →
  is_finite (long_distance / 0.01) = true →
  calculate_zoom_sections self ne_lat ne_long sw_lat sw_long initial_zoom
  = Ok (range rows ≫= λ i,
          section_at self sw_lat sw_long lat_step long_step i <$> range columns).
Proof.
  intros Hlat Hlong. unfold calculate_zoom_sections.
  fold lat_distance long_distance.
  rewrite (sections_count_finite _ Hlat), (sections_count_finite _ Hlong).
  simpl. by rewrite outer_loop.
Qed.

Lemma calculate_zoom_sections_Ok sections :
  calculate_zoom_sections self ne_lat ne_long sw_lat sw_long initial_zoom = Ok sections →
  is_finite (lat_distance / 0.01) = true ∧
  is_finite (long_distance / 0.01) = true ∧
  sections = (range rows ≫= λ i,
                section_at self sw_lat sw_long lat_step long_step i <$> range columns).
Proof.
  intros H.
  assert (is_finite (lat_distance / 0.01) = true ∧
          is_finite (long_distance / 0.01) = true) as [Hlat Hlong].
  { unfold calculate_zoom_sections in H. fold lat_distance long_distance in H.
    destruct (sections_count lat_distance) as [n|] eqn:E1; [|done].
    destruct (sections_count long_distance) as [k|] eqn:E2; [|done].
    apply sections_count_Ok in E1, E2. tauto. }
  rewrite (calculate_zoom_sections_finite Hlat Hlong) in H. by simplify_eq.
Qed.

End PartitionerFacts.

(** ** Facts about deduplication *)

Section DedupeFacts.
Implicit Types (seen : gset pyval) (acc records : list ListingRecord)
               (earlier : list pyval).
#[local] Arguments dedupe_step : simpl never.

Lemma dedupe_step_keep seen acc r :
  truthy (zpid_of r) = true → zpid_of r ∉ seen →
  dedupe_step (seen, acc) r = ({[zpid_of r]} ∪ seen, acc ++ [r]).
Proof.
  intros Ht Hn. unfold dedupe_step. rewrite Ht. by rewrite bool_decide_eq_true_2.
Qed.

Lemma dedupe_step_drop seen acc r :
  truthy (zpid_of r) = false ∨ zpid_of r ∈ seen →
  dedupe_step (seen, acc) r = (seen, acc).
Proof.
  intros [Ht|Hin]; unfold dedupe_step.
  - by rewrite Ht.
  - rewrite bool_decide_eq_false_2 by auto. by rewrite andb_false_r.
Qed.

(** The loop against the rule: the seen-set stands for the identifiers
    that occurred earlier, as far as non-empty ones go. *)
Lemma dedupe_loop records : ∀ seen acc earlier,
  (∀ z, truthy z = true → z ∈ seen ↔ z ∈ earlier) →
  (foldl dedupe_step (seen, acc) records).2 = acc ++ first_occurrences earlier records.
Proof.
  induction records as [|r records IH]; intros seen acc earlier Hinv; simpl.
  - by rewrite app_nil_r.
  - destruct (truthy (zpid_of r)) eqn:Ht; simpl.
    + destruct (decide (zpid_of r ∈ seen)) as [Hin|Hnin].
      * rewrite dedupe_step_drop by auto.
        rewrite bool_decide_eq_false_2 by (rewrite <- Hinv; auto). simpl.
        apply IH. intros z Hz. rewrite elem_of_app, list_elem_of_singleton.
        rewrite Hinv by done. split; [auto|]. intros [?| ->]; [done|].
        by apply Hinv.
      * rewrite dedupe_step_keep by auto.
        rewrite bool_decide_eq_true_2 by (rewrite <- Hinv; auto). simpl.
        rewrite (IH _ _ (earlier ++ [zpid_of r])); [by rewrite <- app_assoc|].
        intros z Hz. rewrite elem_of_union, elem_of_singleton, elem_of_app,
          list_elem_of_singleton. rewrite Hinv by done. tauto.
    + rewrite dedupe_step_drop by auto.
      apply IH. intros z Hz. rewrite elem_of_app, list_elem_of_singleton.
      rewrite Hinv by done. split; [auto|]. intros [?| ->]; [done|]. congruence.
Qed.

Lemma dedupe_first_occurrences records :
  dedupe records = first_occurrences [] records.
Proof.
  unfold dedupe. rewrite (dedupe_loop records ∅ [] []); [done|].
  intros z _. rewrite elem_of_nil. set_solver.
Qed.

Lemma first_occurrences_sublist records : ∀ earlier,
  sublist (first_occurrences earlier records) records.
Proof.
  induction records as [|r records IH]; intros earlier; simpl; [done|].
  destruct (_ && _); simpl.
  - by apply sublist_skip.
  - by apply sublist_cons.
Qed.

(** What the loop keeps has non-empty, pairwise distinct identifiers. *)
Lemma dedupe_loop_unique records : ∀ seen acc,
  unique_ids acc → (∀ z, z ∈ seen ↔ z ∈ zpid_of <$> acc) →
  unique_ids (foldl dedupe_step (seen, acc) records).2.
Proof.
  induction records as [|r records IH]; intros seen acc Hacc Hseen; simpl; [done|].
  destruct (truthy (zpid_of r)) eqn:Ht.
  - destruct (decide (zpid_of r ∈ seen)) as [Hin|Hnin].
    + rewrite dedupe_step_drop by auto. by apply IH.
    + rewrite dedupe_step_keep by auto. apply IH.
      * destruct Hacc as [Hall Hnd]. split.
        -- apply Forall_app. split; [done|]. by constructor.
        -- rewrite fmap_app. simpl. apply NoDup_app. split_and!; [done| |].
           ++ intros z Hz ->%list_elem_of_singleton. by apply Hnin, Hseen.
           ++ apply NoDup_singleton.
      * intros z. rewrite fmap_app, elem_of_union, elem_of_singleton, elem_of_app. simpl.
        rewrite list_elem_of_singleton, Hseen. tauto.
  - rewrite dedupe_step_drop by auto. by apply IH.
Qed.

Lemma dedupe_unique records : unique_ids (dedupe records).
Proof.
  apply dedupe_loop_unique.
  - split; constructor.
  - intros z. simpl. rewrite elem_of_nil. set_solver.
Qed.

(** On such a sequence the loop keeps every record. *)
Lemma dedupe_loop_all records : ∀ seen acc,
  unique_ids records → (∀ r, r ∈ records → zpid_of r ∉ seen) →
  (foldl dedupe_step (seen, acc) records).2 = acc ++ records.
Proof.
  induction records as [|r records IH]; intros seen acc [Hall Hnd] Hfresh; simpl.
  - by rewrite app_nil_r.
  - apply Forall_cons in Hall as [Ht Hall].
    rewrite fmap_cons in Hnd. apply NoDup_cons in Hnd as [Hr Hnd].
    rewrite dedupe_step_keep; [|done|apply Hfresh; by left].
    rewrite IH; [by rewrite <- app_assoc|done|].
    intros r' Hr'. rewrite elem_of_union, elem_of_singleton.
    intros [Heq|Hin].
    + apply Hr. rewrite <- Heq. by apply list_elem_of_fmap_2.
    + eapply Hfresh; [by right|done].
Qed.

Lemma dedupe_fixed records : unique_ids records → dedupe records = records.
Proof.
  intros H. unfold dedupe. rewrite dedupe_loop_all; [done|done|].
  intros r _. set_solver.
Qed.

End DedupeFacts.

(** ** Facts about the collector *)

Section CollectorFacts.
Context {World : Type} (pyzill : @pyzill_module World)
        (self : ZillowScraper) (proxy_url : option string).
Implicit Types (all_results : ResultSet) (w : World) (category : string).

Lemma get_results_for_box_fetch box zoom_value category w :
  get_results_for_box pyzill proxy_url box zoom_value category w
  = (records_of (fetch pyzill proxy_url box zoom_value category w).1,
     (fetch pyzill proxy_url box zoom_value category w).2).
Proof.
  unfold get_results_for_box.
  by destruct (fetch _ _ _ _ _ _) as [[|results] w'].
Qed.

Lemma init_loop (cats : list string) all_results category :
  foldl (λ all_results category, <[category := []]> all_results) all_results cats
    !! category
  = if decide (category ∈ cats) then Some [] else all_results !! category.
Proof.
  revert all_results. induction cats as [|c cats IH]; intros all_results; simpl.
  - done.
  - rewrite IH. destruct (decide (category ∈ cats)) as [Hin|Hnin].
    + by rewrite decide_True by (by right).
    + destruct (decide (category = c)) as [->|Hne].
      * rewrite decide_True by (by left). by rewrite lookup_insert_eq.
      * rewrite lookup_insert_ne by done.
        rewrite decide_False; [done|]. by intros [?|?]%elem_of_cons.
Qed.

Lemma empty_results_lookup category :
  category ∈ categories self → empty_results self !! category = Some [].
Proof. intros H. unfold empty_results. by rewrite init_loop, decide_True. Qed.

(** One turn of the inner loop appends what the call gave. *)
Lemma collect_category_fetch section all_results w category :
  collect_category pyzill proxy_url section (all_results, w) category
  = (alter (λ l, l ++ records_of (fetch pyzill proxy_url section (zoom section) category w).1)
           category all_results,
     (fetch pyzill proxy_url section (zoom section) category w).2).
Proof.
  unfold collect_category. rewrite get_results_for_box_fetch.
  destruct (records_of _) as [|r l] eqn:E; [|done].
  f_equal. apply map_eq. intros c. rewrite lookup_alter.
  case_decide; [subst c|done]. destruct (all_results !! category); simpl; [|done].
  by rewrite app_nil_r.
Qed.

(** The two nested loops make the calls of [calls] one after the other. *)
Lemma collect_sections_calls sections st :
  collect_sections pyzill self proxy_url sections st
  = foldl (λ st '(section, category), collect_category pyzill proxy_url section st category)
          st (calls self sections).
Proof.
  revert st. unfold collect_sections, calls.
  induction sections as [|section sections IH]; intros st; simpl; [done|].
  rewrite foldl_app, <- IH. f_equal. by rewrite foldl_fmap.
Qed.

Lemma calls_loop (pairs : list (Section_ * string)) : ∀ all_results w category,
  (foldl (λ st '(section, category), collect_category pyzill proxy_url section st category)
         (all_results, w) pairs).1 !! category
  = (λ l, l ++ accumulated (fetch_log pyzill proxy_url pairs w) category)
      <$> all_results !! category.
Proof.
  induction pairs as [|[section c] pairs IH]; intros all_results w category.
  - simpl. destruct (all_results !! category); simpl; [|done]. by rewrite app_nil_r.
  - cbn [foldl fetch_log]. rewrite collect_category_fetch.
    destruct (fetch _ _ _ _ _ _) as [o w'] eqn:E. cbn [fst snd].
    rewrite IH. rewrite lookup_alter. unfold accumulated. cbn [mbind list_bind].
    destruct (decide (c = category)) as [->|Hne]; [|done].
    destruct (all_results !! category); simpl; [|done]. by rewrite app_assoc.
Qed.

Lemma fetch_log_length (pairs : list (Section_ * string)) w :
  length (fetch_log pyzill proxy_url pairs w) = length pairs.
Proof.
  revert w. induction pairs as [|[section c] pairs IH]; intros w; simpl; [done|].
  destruct (fetch _ _ _ _ _ _). simpl. by rewrite IH.
Qed.

Lemma calls_length sections :
  length (calls self sections) = (length sections * length (categories self))%nat.
Proof.
  unfold calls. induction sections as [|s sections IH]; simpl; [done|].
  rewrite length_app, length_fmap. by f_equal.
Qed.

Lemma collect_sections_lookup sections w category :
  category ∈ categories self →
  (collect_sections pyzill self proxy_url sections (empty_results self, w)).1 !! category
  = Some (accumulated (fetch_log pyzill proxy_url (calls self sections) w) category).
Proof.
  intros Hc. rewrite collect_sections_calls, calls_loop.
  by rewrite empty_results_lookup.
Qed.

Lemma collect_sections_dom sections : ∀ st category,
  is_Some ((collect_sections pyzill self proxy_url sections st).1 !! category)
  ↔ is_Some (st.1 !! category).
Proof.
  intros [all_results w] category.
  rewrite collect_sections_calls, calls_loop. simpl.
  by rewrite fmap_is_Some.
Qed.

(** The deduplication loop over the categories. *)
Lemma dedupe_categories (cats : list string) : ∀ all_results category,
  foldl (λ all_results category,
         <[category := dedupe (all_results !!! category)]> all_results)
        all_results cats !! category
  = if decide (category ∈ cats) then Some (dedupe (all_results !!! category))
    else all_results !! category.
Proof.
  induction cats as [|c cats IH]; intros all_results category; simpl.
  - done.
  - rewrite IH. destruct (decide (category = c)) as [->|Hne].
    + rewrite (decide_True (P := c ∈ c :: cats)) by (by left).
      rewrite lookup_total_insert_eq, lookup_insert_eq.
      rewrite (dedupe_fixed _ (dedupe_unique _)). by case_decide.
    + rewrite lookup_total_insert_ne, lookup_insert_ne by done.
      destruct (decide (category ∈ cats)) as [Hin|Hnin].
      * by rewrite decide_True by (by right).
      * rewrite decide_False; [done|]. by intros [?|?]%elem_of_cons.
Qed.

Lemma remove_duplicates_lookup all_results category :
  category ∈ categories self →
  remove_duplicates self all_results !! category
  = Some (dedupe (all_results !!! category)).
Proof. intros H. unfold remove_duplicates. by rewrite dedupe_categories, decide_True. Qed.

Lemma remove_duplicates_other all_results category :
  category ∉ categories self →
  remove_duplicates self all_results !! category = all_results !! category.
Proof. intros H. unfold remove_duplicates. by rewrite dedupe_categories, decide_False. Qed.

End CollectorFacts.

(** ** Binary64 facts the degenerate box needs *)

Section FloatFacts.
Local Open Scope float_scope.
Import Py.

Lemma Prim2SF_zero : Prim2SF 0 = S754_zero false.
Proof. reflexivity. Qed.

Lemma SFcompare_finite_refl s m e :
  SFcompare (S754_finite s m e) (S754_finite s m e) = Some Eq.
Proof.
  simpl. rewrite Z.compare_refl.
  change (Pos.compare_cont Eq m m) with (m ?= m)%positive.
  rewrite Pos.compare_refl. by destruct s.
Qed.

(** [==] on floats: both are zeros, or the same finite number, or the
    same infinity. *)
Lemma SFeqb_inv x y :
  SFeqb x y = true →
  (∃ s s', x = S754_zero s ∧ y = S754_zero s') ∨
  (∃ s m e, x = S754_finite s m e ∧ y = S754_finite s m e) ∨
  (∃ s, x = S754_infinity s ∧ y = S754_infinity s).
Proof.
  unfold SFeqb.
  destruct x as [s|s| |s m e], y as [s'|s'| |s' m' e']; simpl; intros H;
    try discriminate; try (destruct s; discriminate);
    try (destruct s'; discriminate).
  - eauto.
  - destruct s, s'; try discriminate; eauto.
  - right. left.
    assert (e = e' ∧ m = m' ∧ s = s') as (-> & -> & ->); [|eauto].
    destruct s, s'; try discriminate;
      destruct (e ?= e')%Z eqn:He; try discriminate;
      apply Z.compare_eq in He;
      change (Pos.compare_cont Eq m m') with (m ?= m')%positive in H;
      destruct (m ?= m')%positive eqn:Hm; try discriminate;
      apply Pos.compare_eq in Hm; done.
Qed.

(** Equal finite bounds are at distance zero. *)
Lemma distance_eqb ne sw :
  is_finite sw = true → (ne =? sw) = true → distance ne sw = 0.
Proof.
  unfold is_finite, distance. rewrite FloatAxioms.eqb_spec. intros Hfin Heq.
  apply Prim2SF_inj. rewrite FloatAxioms.abs_spec, FloatAxioms.sub_spec, Prim2SF_zero.
  destruct (SFeqb_inv _ _ Heq) as [(s & s' & -> & ->)|[(s & m & e & -> & ->)|(s & -> & Hsw)]].
  - by destruct s, s'.
  - unfold SF64sub, SFsub. by rewrite Z.sub_diag.
  - by rewrite Hsw in Hfin.
Qed.

(** Adding [0.0] to a finite bound gives the bound back, up to the sign
    of a zero. *)
Lemma add_zero_eqb x y :
  is_finite y = true → (x =? y) = true → (y + 0 =? x) = true.
Proof.
  unfold is_finite. rewrite !FloatAxioms.eqb_spec, FloatAxioms.add_spec, Prim2SF_zero. intros Hfin Heq.
  destruct (SFeqb_inv _ _ Heq) as [(s & s' & -> & ->)|[(s & m & e & -> & ->)|(s & -> & Hy)]].
  - by destruct s'.
  - unfold SF64add, SFadd, SFeqb. by rewrite SFcompare_finite_refl.
  - by rewrite Hy in Hfin.
Qed.

Lemma eqb_finite_refl x : is_finite x = true → (x =? x) = true.
Proof.
  unfold is_finite. rewrite FloatAxioms.eqb_spec. destruct (Prim2SF x) as [s| | |s m e]; try done.
  intros _. unfold SFeqb. by rewrite SFcompare_finite_refl.
Qed.

(** A finite quotient comes from finite bounds. *)
Lemma finite_quotient_bounds north south :
  is_finite (distance north south / 0.01) = true →
  is_finite north = true ∧ is_finite south = true.
Proof.
  unfold is_finite, distance.
  rewrite FloatAxioms.div_spec, FloatAxioms.abs_spec, FloatAxioms.sub_spec.
  change (Prim2SF 0.01) with (S754_finite false 5764607523034235 (-59)).
  destruct (Prim2SF north) as [s|s| |s m e], (Prim2SF south) as [s'|s'| |s' m' e'];
    try done; try (by destruct s); try (by destruct s, s').
Qed.

(** The first row starts at the south edge, the first column at the west
    edge, up to the sign of a zero. *)
Lemma near_edge_eqb south step :
  is_finite south = true → is_finite step = true →
  (south + float_of_int 0 * step =? south) = true.
Proof.
  unfold is_finite. change (float_of_int 0) with 0.
  rewrite FloatAxioms.eqb_spec, FloatAxioms.add_spec, FloatAxioms.mul_spec, Prim2SF_zero.
  destruct (Prim2SF south) as [s|s| |s m e], (Prim2SF step) as [s'|s'| |s' m' e'];
    try done; intros _ _; simpl.
  - by destruct s, s'.
  - by destruct s, s'.
  - unfold SFeqb. by rewrite SFcompare_finite_refl.
  - unfold SFeqb. by rewrite SFcompare_finite_refl.
Qed.

Lemma sections_count_zero : sections_count 0 = Ok 1%Z.
Proof. reflexivity. Qed.

Lemma step_zero : 0 / float_of_int 1 = 0.
Proof. reflexivity. Qed.

Lemma far_edge_zero : float_of_int (0 + 1) * 0 = 0.
Proof. reflexivity. Qed.

Lemma near_edge_zero : float_of_int 0 * 0 = 0.
Proof. reflexivity. Qed.

End FloatFacts.

(** ** Truncation rounds a non-negative quotient down *)

Section TruncFacts.
Local Open Scope float_scope.
Import Py.

Lemma binary_round_aux_sign mx ex lx :
  match binary_round_aux prec emax false mx ex lx with
  | S754_finite s _ _ => s = false
  | _ => True
  end.
Proof.
  unfold binary_round_aux.
  destruct (shr_fexp _ _ _ _ _) as [mrs' e'].
  destruct (shr_fexp _ _ _ _ _) as [mrs'' e''].
  destruct (shr_m mrs''); [done| |done]. by destruct (_ <=? _)%Z.
Qed.

(** The quotient of a distance by the target size is never negative. *)
Lemma quotient_sign ne sw :
  match Prim2SF (distance ne sw / 0.01) with
  | S754_finite s _ _ => s = false
  | _ => True
  end.
Proof.
  unfold distance. rewrite FloatAxioms.div_spec, FloatAxioms.abs_spec.
  change (Prim2SF 0.01) with (S754_finite false 5764607523034235 (-59)).
  destruct (SFabs _) as [s|s| |s m e] eqn:E; try done.
  assert (s = false) as -> by (destruct (Prim2SF (ne - sw)); by simplify_eq/=).
  unfold SF64div, SFdiv. destruct (SFdiv_core_binary _ _ _ _ _ _) as [[mz ez] lz].
  apply binary_round_aux_sign.
Qed.

Lemma trunc_le_value x :
  match Prim2SF x with S754_finite s _ _ => s = false | _ => True end →
  (inject_Z (trunc x) <= value x)%Q.
Proof.
  unfold trunc, value. destruct (Prim2SF x) as [s|s| |s m e]; try done.
  intros ->. unfold cond_Zopp. destruct e as [|p|p].
  - rewrite Qmult_1_r. apply Qle_refl.
  - rewrite inject_Z_mult. rewrite Zpower_Qpower by lia. apply Qle_refl.
  - change (Z.neg p) with (- Z.pos p)%Z. rewrite Qpower_opp.
    assert (Hpos : (0 < inject_Z 2 ^ Z.pos p)%Q) by (by apply Qpower_0_lt).
    apply Qle_shift_div_l; [done|].
    change 2%Q with (inject_Z 2).
    rewrite <- Zpower_Qpower by lia. rewrite <- inject_Z_mult, <- Zle_Qle.
    rewrite Z.mul_comm. apply Z.mul_div_le. lia.
Qed.

End TruncFacts.

(** ** Binary64 rounding: magnitudes and overflow *)

Section Rounding.
Local Open Scope Z_scope.

Lemma fexp64_eq x : fexp64 x = Z.max (x - 53) (-1074).
Proof. reflexivity. Qed.

Lemma digits2_pos_bounds m :
  2 ^ (Z.pos (digits2_pos m) - 1) ≤ Z.pos m < 2 ^ Z.pos (digits2_pos m).
Proof.
  induction m as [m IH|m IH|]; simpl digits2_pos.
  - rewrite Pos2Z.inj_succ, Z.pow_succ_r by lia.
    replace (Z.succ (Z.pos (digits2_pos m)) - 1) with (Z.succ (Z.pos (digits2_pos m) - 1)) by lia.
    rewrite Z.pow_succ_r by lia. lia.
  - rewrite Pos2Z.inj_succ, Z.pow_succ_r by lia.
    replace (Z.succ (Z.pos (digits2_pos m)) - 1) with (Z.succ (Z.pos (digits2_pos m) - 1)) by lia.
    rewrite Z.pow_succ_r by lia. lia.
  - simpl. lia.
Qed.

Lemma Zdigits2_nonneg z : 0 ≤ Zdigits2 z.
Proof. destruct z; simpl; lia. Qed.

Lemma Zdigits2_upper z : 0 ≤ z → z < 2 ^ Zdigits2 z.
Proof.
  destruct z as [|p|p]; simpl; [lia| |lia]. intros _. apply digits2_pos_bounds.
Qed.

(** A number below [2^k] has at most [k] digits. *)
Lemma Zdigits2_le z k : 0 ≤ z → 0 ≤ k → z < 2 ^ k → Zdigits2 z ≤ k.
Proof.
  destruct z as [|p|p]; simpl; [lia| |lia]. intros _ Hk Hlt.
  pose proof (digits2_pos_bounds p) as [Hlo _].
  destruct (Z_le_gt_dec (Z.pos (digits2_pos p)) k) as [|Hgt]; [done|].
  assert (2 ^ k ≤ 2 ^ (Z.pos (digits2_pos p) - 1)) by (apply Z.pow_le_mono_r; lia).
  lia.
Qed.

Lemma shr_1_m mrs : 0 ≤ shr_m mrs → shr_m (shr_1 mrs) = shr_m mrs / 2.
Proof.
  destruct mrs as [m r s]. cbn [shr_m shr_1].
  destruct m as [|[p|p|]|p]; cbn [shr_m]; intros Hm; try lia.
  - reflexivity.
  - rewrite Pos2Z.inj_xI. apply (Z.div_unique _ _ _ 1); lia.
  - rewrite Pos2Z.inj_xO. apply (Z.div_unique _ _ _ 0); lia.
  - reflexivity.
Qed.

Lemma iter_pos_ind {A : Type} (f : A → A) (P : Z → A → Prop) :
  (∀ k x, 0 ≤ k → P k x → P (k + 1) (f x)) →
  ∀ p k x, 0 ≤ k → P k x → P (k + Z.pos p) (SpecFloat.iter_pos f p x).
Proof.
  intros Hstep. induction p as [p IH|p IH|]; intros k x Hk HP; simpl.
  - replace (k + Z.pos p~1) with (k + 1 + Z.pos p + Z.pos p) by lia.
    apply IH; [lia|]. apply IH; [lia|]. by apply Hstep.
  - replace (k + Z.pos p~0) with (k + Z.pos p + Z.pos p) by lia.
    apply IH; [lia|]. by apply IH.
  - by apply Hstep.
Qed.

Lemma shr_m_iter p mrs :
  0 ≤ shr_m mrs → shr_m (SpecFloat.iter_pos shr_1 p mrs) = shr_m mrs / 2 ^ Z.pos p.
Proof.
  intros Hm.
  pose proof (iter_pos_ind shr_1
    (λ k x, shr_m x = shr_m mrs / 2 ^ k)) as H.
  rewrite <- (Z.add_0_l (Z.pos p)). apply H; [|lia|].
  - intros k x Hk Hx. rewrite shr_1_m.
    + rewrite Hx, Z.pow_add_r, Z.pow_1_r by lia. rewrite Z.div_div by lia. done.
    + rewrite Hx. apply Z.div_pos; lia.
  - by rewrite Z.pow_0_r, Z.div_1_r.
Qed.

Lemma shr_record_of_loc_m m l : shr_m (shr_record_of_loc m l) = m.
Proof. by destruct l as [|[]]. Qed.

(** One normalisation step: the exponent is raised to [fexp] of the
    magnitude, the mantissa loses the bits below it. *)
Lemma shr_fexp_spec m e l :
  0 ≤ m →
  ∃ mrs e', shr_fexp prec emax m e l = (mrs, e') ∧
    e' = Z.max e (fexp64 (Zdigits2 m + e)) ∧
    shr_m mrs = m / 2 ^ (e' - e).
Proof.
  intros Hm. unfold shr_fexp, shr.
  destruct (fexp64 (Zdigits2 m + e) - e) as [|p|p] eqn:E.
  - eexists _, _. split; [done|]. split; [lia|].
    rewrite shr_record_of_loc_m. replace (e - e) with 0 by lia.
    by rewrite Z.pow_0_r, Z.div_1_r.
  - eexists _, _. split; [done|]. split; [lia|].
    rewrite shr_m_iter by (by rewrite shr_record_of_loc_m).
    rewrite shr_record_of_loc_m. do 2 f_equal. lia.
  - eexists _, _. split; [done|]. split; [lia|].
    rewrite shr_record_of_loc_m. replace (e - e) with 0 by lia.
    by rewrite Z.pow_0_r, Z.div_1_r.
Qed.

Lemma round_nearest_even_bounds m l :
  m ≤ round_nearest_even m l ≤ m + 1.
Proof. destruct l as [|[]]; simpl; try lia. destruct (Z.even m); lia. Qed.

Lemma div_pow2_upper m k :
  0 ≤ m → 0 ≤ k → m / 2 ^ k < 2 ^ Z.max (Zdigits2 m - k) 0.
Proof.
  intros Hm Hk. pose proof (Zdigits2_upper m Hm) as Hup.
  pose proof (Zdigits2_nonneg m) as Hd.
  apply Z.div_lt_upper_bound; [lia|]. rewrite <- Z.pow_add_r by lia.
  eapply Z.lt_le_trans; [exact Hup|]. apply Z.pow_le_mono_r; lia.
Qed.

Lemma div_pow2_digits m k :
  0 ≤ m → 0 ≤ k → 0 < m / 2 ^ k → Zdigits2 (m / 2 ^ k) + k ≤ Zdigits2 m.
Proof.
  intros Hm Hk Hpos. pose proof (div_pow2_upper m k Hm Hk) as Hup.
  destruct (Z_le_gt_dec k (Zdigits2 m)) as [Hle|Hgt].
  - rewrite Z.max_l in Hup by lia.
    pose proof (Zdigits2_le (m / 2 ^ k) (Zdigits2 m - k)). lia.
  - rewrite Z.max_r in Hup by lia. change (2 ^ 0) with 1 in Hup. lia.
Qed.

(** Rounding a mantissa whose magnitude is below [2^B]: no overflow as long
    as [B] leaves room, and the result stays below [2^(B+1)]. *)
Lemma binary_round_aux_bounded sx m e l B :
  0 ≤ m → Zdigits2 m + e ≤ B → e ≤ B → -1074 ≤ B → B ≤ 1023 → e ≤ 971 →
  match binary_round_aux prec emax sx m e l with
  | S754_zero _ => True
  | S754_finite _ m' e' => Z.pos (digits2_pos m') + e' ≤ B + 1
  | _ => False
  end.
Proof.
  intros Hm HB HeB HBlo HBhi He. unfold binary_round_aux.
  destruct (shr_fexp_spec m e l Hm) as (mrs' & e1 & -> & He1 & Hm1).
  rewrite fexp64_eq in He1.
  assert (Hm1pos : 0 ≤ shr_m mrs') by (rewrite Hm1; apply Z.div_pos; lia).
  pose proof (round_nearest_even_bounds (shr_m mrs') (loc_of_shr_record mrs')) as Hr.
  set (m2 := round_nearest_even _ _) in *.
  assert (Hm2 : 0 ≤ m2) by lia.
  destruct (shr_fexp_spec m2 e1 loc_Exact Hm2) as (mrs'' & e2 & -> & He2 & Hm3).
  rewrite fexp64_eq in He2.
  assert (Hd2 : Zdigits2 m2 + e1 ≤ B + 1).
  { pose proof (div_pow2_upper m (e1 - e) Hm ltac:(lia)) as Hup.
    rewrite <- Hm1 in Hup.
    pose proof (Zdigits2_le m2 (Z.max (Zdigits2 m - (e1 - e)) 0 + 1)) as Hle.
    rewrite Z.pow_add_r, Z.pow_1_r in Hle by lia.
    assert (0 < 2 ^ Z.max (Zdigits2 m - (e1 - e)) 0) by (apply Z.pow_pos_nonneg; lia).
    lia. }
  assert (He2' : e2 ≤ 971) by lia.
  assert (Hm3pos : 0 ≤ shr_m mrs'') by (rewrite Hm3; apply Z.div_pos; lia).
  destruct (shr_m mrs'') as [|p|p] eqn:E; [done| |lia].
  change (emax - prec) with 971. rewrite (proj2 (Z.leb_le _ _) He2').
  pose proof (div_pow2_digits m2 (e2 - e1) Hm2 ltac:(lia)) as Hdig.
  rewrite <- Hm3 in Hdig. simpl in Hdig. lia.
Qed.

(** Dividing finite numbers: with [D1] and [D2] the magnitudes of the
    operands, the quotient is below [2^(D1 - D2 + 2)] and does not overflow
    as long as that leaves room. *)
Lemma SFdiv_finite_bounded sx mx ex sy my ey B :
  Z.pos (digits2_pos mx) + ex - (Z.pos (digits2_pos my) + ey) + 1 ≤ B →
  -1074 ≤ B → B ≤ 1023 →
  match SF64div (S754_finite sx mx ex) (S754_finite sy my ey) with
  | S754_zero _ => True
  | S754_finite _ m' e' => Z.pos (digits2_pos m') + e' ≤ B + 1
  | _ => False
  end.
Proof.
  intros HB HBlo HBhi. unfold SF64div, SFdiv, SFdiv_core_binary.
  cbn [Zdigits2]. rewrite fexp64_eq.
  set (d1 := Z.pos (digits2_pos mx)) in *. set (d2 := Z.pos (digits2_pos my)) in *.
  set (e' := Z.min _ _). set (s := ex - ey - e').
  assert (Hs : 0 ≤ s) by lia.
  set (m' := match s with Z.pos _ => Z.shiftl (Z.pos mx) s | 0 => Z.pos mx | Z.neg _ => 0 end).
  assert (Hm' : m' = Z.pos mx * 2 ^ s).
  { subst m'. destruct s as [|p|p] eqn:E; [lia| |lia]. by rewrite Z.shiftl_mul_pow2. }
  pose proof (digits2_pos_bounds mx) as [_ Hmx].
  pose proof (digits2_pos_bounds my) as [Hmy _]. fold d1 in Hmx. fold d2 in Hmy.
  assert (Hm'up : m' < 2 ^ (d1 + s)).
  { rewrite Hm', Z.pow_add_r by lia. apply Z.mul_lt_mono_pos_r; [|done].
    apply Z.pow_pos_nonneg; lia. }
  assert (Hm'pos : 0 ≤ m') by (rewrite Hm'; lia).
  destruct (Z.div_eucl m' (Z.pos my)) as [q r] eqn:E.
  assert (Hq : q = m' / Z.pos my) by (unfold Z.div; by rewrite E).
  assert (Hqpos : 0 ≤ q) by (rewrite Hq; apply Z.div_pos; lia).
  assert (Hqd : Zdigits2 q ≤ Z.max (d1 + s - d2 + 1) 0).
  { apply Zdigits2_le; [done|lia|].
    destruct (Z_le_gt_dec 0 (d1 + s - d2 + 1)) as [Hk|Hk].
    - rewrite Z.max_l by done. rewrite Hq. apply Z.div_lt_upper_bound; [lia|].
      eapply Z.lt_le_trans; [exact Hm'up|].
      assert (2 ^ (d1 + s) = 2 ^ (d2 - 1) * 2 ^ (d1 + s - d2 + 1)) as ->
        by (rewrite <- Z.pow_add_r by lia; f_equal; lia).
      apply Z.mul_le_mono_nonneg_r; [|done].
      apply Z.pow_nonneg; lia.
    - rewrite Z.max_r by lia. rewrite Hq, Z.div_small; [done|]. split; [done|].
      eapply Z.lt_le_trans; [exact Hm'up|]. etrans; [|exact Hmy].
      apply Z.pow_le_mono_r; lia. }
  apply binary_round_aux_bounded; lia.
Qed.

Lemma digits2_pos_iter_xO p k :
  Z.pos (digits2_pos (Pos.iter xO p k)) = Z.pos (digits2_pos p) + Z.pos k.
Proof.
  induction k as [|k IH] using Pos.peano_ind.
  - simpl. lia.
  - rewrite Pos.iter_succ. cbn [digits2_pos]. rewrite !Pos2Z.inj_succ, IH. lia.
Qed.

(** A mantissa of 53 bits with an exponent in range is a float as it is. *)
Lemma binary_round_aux_exact sx mz ez :
  Z.pos (digits2_pos mz) = 53 → -1074 ≤ ez ≤ 971 →
  binary_round_aux prec emax sx (Z.pos mz) ez loc_Exact = S754_finite sx mz ez.
Proof.
  intros Hd He.
  assert (Hshr : shr_fexp prec emax (Z.pos mz) ez loc_Exact
                 = ({| shr_m := Z.pos mz; shr_r := false; shr_s := false |}, ez)).
  { unfold shr_fexp, shr. cbn [Zdigits2]. rewrite Hd, fexp64_eq.
    replace (Z.max (53 + ez - 53) (-1074) - ez) with 0 by lia. done. }
  unfold binary_round_aux. rewrite Hshr. cbn [shr_m loc_of_shr_record round_nearest_even].
  rewrite Hshr. cbn [shr_m]. change (emax - prec) with 971.
  by rewrite (proj2 (Z.leb_le _ _) (proj2 He)).
Qed.

(** An integer of at most 53 bits converts exactly. *)
Lemma binary_normalize_small p :
  Z.pos (digits2_pos p) ≤ 53 →
  ∃ m e, binary_normalize prec emax (Z.pos p) 0 false = S754_finite false m e ∧
         Z.pos (digits2_pos m) + e = Z.pos (digits2_pos p) ∧
         valid_binary (S754_finite false m e) = true.
Proof.
  intros Hd. unfold binary_normalize, binary_round, shl_align.
  rewrite fexp64_eq.
  replace (Z.max (Z.pos (digits2_pos p) + 0 - 53) (-1074) - 0)
    with (Z.pos (digits2_pos p) - 53) by lia.
  replace (Z.max (Z.pos (digits2_pos p) + 0 - 53) (-1074))
    with (Z.pos (digits2_pos p) - 53) by lia.
  assert (Hvalid : ∀ m e, Z.pos (digits2_pos m) = 53 → -1074 ≤ e ≤ 971 →
            valid_binary (S754_finite false m e) = true).
  { intros m e Hm He. unfold valid_binary, bounded, canonical_mantissa.
    rewrite Hm, fexp64_eq. change (emax - prec) with 971.
    apply andb_true_intro. split; [apply Z.eqb_eq|apply Z.leb_le]; lia. }
  destruct (Z.pos (digits2_pos p) - 53) as [|k|k] eqn:E; [|lia|].
  - exists p, 0. rewrite binary_round_aux_exact by lia.
    split; [done|]. split; [lia|]. apply Hvalid; lia.
  - pose proof (digits2_pos_iter_xO p k) as Hk.
    exists (Pos.iter xO p k), (Z.neg k). rewrite binary_round_aux_exact by lia.
    split; [done|]. split; [lia|]. apply Hvalid; lia.
Qed.

Lemma Zdigits2_lower z : 0 < z → 2 ^ (Zdigits2 z - 1) ≤ z.
Proof.
  destruct z as [|p|p]; simpl; [lia| |lia]. intros _. apply digits2_pos_bounds.
Qed.

(** Above the least exponent a normalisation step keeps a mantissa positive:
    there is no underflow to zero. *)
Lemma shr_fexp_pos m e l :
  0 < m → -1074 ≤ e →
  ∃ mrs e', shr_fexp prec emax m e l = (mrs, e') ∧ 0 < shr_m mrs ∧ -1074 ≤ e'.
Proof.
  intros Hm He.
  destruct (shr_fexp_spec m e l) as (mrs & e' & H & He' & Hmrs); [lia|].
  exists mrs, e'. split; [done|]. rewrite fexp64_eq in He'. split; [|lia].
  rewrite Hmrs. apply Z.div_str_pos. split; [apply Z.pow_pos_nonneg; lia|].
  pose proof (Zdigits2_lower m Hm) as Hlo.
  etrans; [|exact Hlo]. apply Z.pow_le_mono_r; [lia|].
  pose proof (Zdigits2_nonneg m).
  assert (1 ≤ Zdigits2 m) by (destruct m; simpl in *; lia). lia.
Qed.

Lemma binary_round_aux_nonzero sx m e l s :
  0 < m → -1074 ≤ e → binary_round_aux prec emax sx m e l ≠ S754_zero s.
Proof.
  intros Hm He. unfold binary_round_aux.
  destruct (shr_fexp_pos m e l Hm He) as (mrs' & e1 & -> & Hm1 & He1).
  pose proof (round_nearest_even_bounds (shr_m mrs') (loc_of_shr_record mrs')) as Hr.
  set (m2 := round_nearest_even _ _) in *.
  destruct (shr_fexp_pos m2 e1 loc_Exact) as (mrs'' & e2 & -> & Hm3 & He2); [lia|done|].
  destruct (shr_m mrs''); [lia| |done]. by destruct (_ <=? _).
Qed.

Lemma binary_normalize_nonzero z e s :
  z ≠ 0 → -1074 ≤ e → binary_normalize prec emax z e false ≠ S754_zero s.
Proof.
  intros Hz He.
  assert (∀ sx p, binary_round prec emax sx p e ≠ S754_zero s) as Hround.
  { intros sx p. unfold binary_round, shl_align. rewrite fexp64_eq.
    destruct (_ - e) eqn:E; apply binary_round_aux_nonzero; lia. }
  destruct z; [done|apply Hround..].
Qed.

Lemma valid_binary_finite s m e :
  valid_binary (S754_finite s m e) = true →
  -1074 ≤ e ∧ fexp64 (Z.pos (digits2_pos m) + e) = e.
Proof.
  unfold valid_binary, bounded, canonical_mantissa.
  intros [Hc _]%andb_prop. apply Z.eqb_eq in Hc.
  split; [|done]. rewrite fexp64_eq in Hc. lia.
Qed.

Lemma shl_align_digits mx ex ez :
  ez ≤ ex →
  Z.pos (digits2_pos (shl_align mx ex ez).1) + ez = Z.pos (digits2_pos mx) + ex.
Proof.
  intros Hle. unfold shl_align. destruct (ez - ex) as [|d|d] eqn:E; simpl; [lia..|].
  rewrite digits2_pos_iter_xO. lia.
Qed.

(** A difference of finite floats is zero only if they are equal. *)
Lemma SFsub_zero_inv x y s :
  valid_binary x = true → valid_binary y = true →
  SF64sub x y = S754_zero s →
  SFeqb x y = true ∧
  match y with S754_zero _ | S754_finite _ _ _ => True | _ => False end.
Proof.
  intros Hx Hy. unfold SF64sub, SFsub.
  destruct x as [sx|sx| |sx mx ex], y as [sy|sy| |sy my ey]; try done;
    try (by destruct sx, sy).
  intros Hsub.
  destruct (valid_binary_finite _ _ _ Hx) as [Hex Hcx].
  destruct (valid_binary_finite _ _ _ Hy) as [Hey Hcy].
  pose proof (shl_align_digits mx ex (Z.min ex ey) ltac:(lia)) as Hdx.
  pose proof (shl_align_digits my ey (Z.min ex ey) ltac:(lia)) as Hdy.
  set (MX := (shl_align mx ex (Z.min ex ey)).1) in *.
  set (MY := (shl_align my ey (Z.min ex ey)).1) in *.
  change (fst (shl_align mx ex (Z.min ex ey))) with MX in Hsub.
  change (fst (shl_align my ey (Z.min ex ey))) with MY in Hsub.
  destruct (decide (cond_Zopp sx (Z.pos MX) - cond_Zopp sy (Z.pos MY) = 0)) as [Hz|Hnz].
  2:{ by apply binary_normalize_nonzero in Hsub; [|done|lia]. }
  assert (sx = sy ∧ MX = MY) as [-> HM].
  { destruct sx, sy; simpl in Hz; split; try done; lia. }
  assert (ex = ey) as -> by (rewrite HM in Hdx; congruence).
  assert (mx = my) as ->.
  { subst MX MY. unfold shl_align in HM. rewrite Z.min_id, Z.sub_diag in HM. done. }
  split; [|done]. unfold SFeqb. by rewrite SFcompare_finite_refl.
Qed.

End Rounding.

(** ** Boxes in degrees: spans of at most 360 *)

Section Degrees.
Local Open Scope float_scope.
Import Py.

Lemma is_finite_below B x : below B (Prim2SF x) → is_finite x = true.
Proof. unfold is_finite. by destruct (Prim2SF x). Qed.

Lemma span_below north south :
  (distance north south <=? 360) = true → below 9 (Prim2SF (distance north south)).
Proof.
  unfold distance. rewrite FloatAxioms.leb_spec, FloatAxioms.abs_spec.
  change (Prim2SF 360) with (S754_finite false 6333186975989760 (-44)).
  pose proof (Prim2SF_valid (north - south)) as Hvalid.
  destruct (Prim2SF (north - south)) as [s|s| |s m e]; try done.
  cbn [SFabs below]. unfold SFleb, SFcompare. intros Hle.
  assert (He : (e ≤ -44)%Z).
  { destruct (e ?= -44)%Z eqn:E; [apply Z.compare_eq in E; lia| |done].
    pose proof (proj1 (Z.compare_lt_iff _ _) E). lia. }
  unfold valid_binary, bounded, canonical_mantissa in Hvalid.
  apply andb_prop in Hvalid as [Hc _]. apply Z.eqb_eq in Hc.
  rewrite fexp64_eq in Hc. lia.
Qed.

Lemma quotient_below d : below 9 (Prim2SF d) → below 17 (Prim2SF (d / 0.01)).
Proof.
  rewrite FloatAxioms.div_spec.
  change (Prim2SF 0.01) with (S754_finite false 5764607523034235 (-59)).
  destruct (Prim2SF d) as [s|s| |s m e]; try done. cbn [below]. intros Hd.
  apply (SFdiv_finite_bounded s m e false 5764607523034235 (-59) 16); [|lia..].
  change (Z.pos (digits2_pos 5764607523034235)) with 53%Z. lia.
Qed.

Lemma trunc_below B x : (0 ≤ B)%Z → below B (Prim2SF x) → (trunc x < 2 ^ B)%Z.
Proof.
  intros HB. unfold trunc.
  assert (Hpow : (0 < 2 ^ B)%Z) by (apply Z.pow_pos_nonneg; lia).
  destruct (Prim2SF x) as [s|s| |s m e]; try done. cbn [below]. intros Hd.
  pose proof (digits2_pos_bounds m) as [_ Hm].
  assert (match e with
          | 0 => Z.pos m
          | Z.pos p => Z.pos m * 2 ^ Z.pos p
          | Z.neg p => Z.pos m / 2 ^ Z.pos p
          end < 2 ^ B)%Z as Hlt.
  { destruct e as [|p|p].
    - eapply Z.lt_le_trans; [exact Hm|]. apply Z.pow_le_mono_r; lia.
    - eapply Z.lt_le_trans; [|apply (Z.pow_le_mono_r 2 (Z.pos (digits2_pos m) + Z.pos p)); lia].
      rewrite Z.pow_add_r by lia. apply Z.mul_lt_mono_pos_r; [|done].
      apply Z.pow_pos_nonneg; lia.
    - pose proof (div_pow2_upper (Z.pos m) (Z.pos p)) as Hup. cbn [Zdigits2] in Hup.
      eapply Z.lt_le_trans; [apply Hup; lia|]. apply Z.pow_le_mono_r; lia. }
  destruct s; cbn [cond_Zopp]; [|done].
  assert (0 ≤ match e with
              | 0 => Z.pos m
              | Z.pos p => Z.pos m * 2 ^ Z.pos p
              | Z.neg p => Z.pos m / 2 ^ Z.pos p
              end)%Z; [|lia].
  destruct e; [lia|lia|]. apply Z.div_pos; lia.
Qed.

Lemma float_of_int_small n :
  (1 ≤ n < 2 ^ 53)%Z →
  ∃ m e, Prim2SF (float_of_int n) = S754_finite false m e ∧
         (1 ≤ Z.pos (digits2_pos m) + e)%Z.
Proof.
  intros Hn. destruct n as [|p|p]; [lia| |lia].
  assert (Hd : (Z.pos (digits2_pos p) ≤ 53)%Z)
    by (apply (Zdigits2_le (Z.pos p)); lia).
  destruct (binary_normalize_small p Hd) as (m & e & Hnorm & Hmag & Hvalid).
  exists m, e. unfold float_of_int. rewrite Hnorm.
  split; [by apply Prim2SF_SF2Prim|lia].
Qed.

Lemma step_below d n :
  below 9 (Prim2SF d) → (1 ≤ n < 2 ^ 53)%Z → below 10 (Prim2SF (d / float_of_int n)).
Proof.
  intros Hd Hn. rewrite FloatAxioms.div_spec.
  destruct (float_of_int_small n Hn) as (m' & e' & -> & Hmag).
  destruct (Prim2SF d) as [s|s| |s m e]; try done. cbn [below] in Hd.
  apply (SFdiv_finite_bounded s m e false m' e' 9); lia.
Qed.

(** A distance is zero only between equal finite bounds. *)
Lemma distance_zero_inv north south :
  distance north south = 0 → is_finite south = true ∧ (north =? south) = true.
Proof.
  unfold distance, is_finite. intros H. apply (f_equal Prim2SF) in H.
  rewrite FloatAxioms.abs_spec, FloatAxioms.sub_spec, Prim2SF_zero in H.
  rewrite FloatAxioms.eqb_spec.
  destruct (SF64sub _ _) as [s| | |] eqn:E; try done.
  apply SFsub_zero_inv in E as [Heq Hsouth]; [|apply Prim2SF_valid..].
  split; [|done]. by destruct (Prim2SF south).
Qed.

(** A span of at most 360 degrees has a finite quotient by 0.01, and the
    step it is cut into is finite. *)
Lemma span_in_degrees north south :
  let d := distance north south in
  (d <=? 360) = true →
  is_finite (d / 0.01) = true ∧
  is_finite (d / float_of_int (Z.max 1 (trunc (d / 0.01)))) = true.
Proof.
  intros d Hd. pose proof (span_below _ _ Hd) as Hspan. fold d in Hspan.
  pose proof (quotient_below _ Hspan) as Hq.
  split; [by eapply is_finite_below|].
  apply (is_finite_below 10), step_below; [done|].
  pose proof (trunc_below 17 _ ltac:(lia) Hq).
  assert (2 ^ 17 < 2 ^ 53)%Z by (apply Z.pow_lt_mono_r; lia). lia.
Qed.

End Degrees.

(** ** Binary64 rounding: when the quotient is rounded up *)

Section RoundUp.
Local Open Scope Z_scope.

Lemma shr_1_r mrs : 0 ≤ shr_m mrs → shr_r (shr_1 mrs) = Z.odd (shr_m mrs).
Proof.
  destruct mrs as [m r s]. cbn [shr_m shr_1].
  destruct m as [|[p|p|]|p]; cbn [shr_r shr_m]; intros Hm; try done; lia.
Qed.

(** After [k >= 1] shifts the round bit is the last bit shifted out. *)
Lemma shr_iter_round_bit p mrs :
  0 ≤ shr_m mrs →
  shr_r (SpecFloat.iter_pos shr_1 p mrs) = Z.odd (shr_m mrs / 2 ^ (Z.pos p - 1)).
Proof.
  intros Hm.
  set (P := λ k x, shr_m x = shr_m mrs / 2 ^ k ∧
                   (1 ≤ k → shr_r x = Z.odd (shr_m mrs / 2 ^ (k - 1)))).
  assert (Hstep : ∀ k x, 0 ≤ k → P k x → P (k + 1) (shr_1 x)).
  { intros k x Hk [Hx Hr]. split.
    - rewrite shr_1_m by (rewrite Hx; apply Z.div_pos; lia).
      rewrite Hx, Z.pow_add_r, Z.pow_1_r by lia. by rewrite Z.div_div by lia.
    - intros _. rewrite shr_1_r by (rewrite Hx; apply Z.div_pos; lia).
      rewrite Hx. do 3 f_equal. lia. }
  destruct (iter_pos_ind shr_1 P Hstep p 0 mrs ltac:(lia)) as [_ Hr].
  - split; [by rewrite Z.pow_0_r, Z.div_1_r|lia].
  - rewrite Z.add_0_l in Hr. apply Hr. lia.
Qed.

(** An odd quotient by [2^(k-1)]: the bits shifted out make at least half
    of [2^k]. *)
Lemma odd_half m k :
  0 ≤ m → 1 ≤ k → Z.odd (m / 2 ^ (k - 1)) = true →
  (2 * (m / 2 ^ k) + 1) * 2 ^ (k - 1) ≤ m.
Proof.
  intros Hm Hk Hodd.
  assert (Hpow : 0 < 2 ^ (k - 1)) by (apply Z.pow_pos_nonneg; lia).
  assert (E : 2 ^ k = 2 ^ (k - 1) * 2).
  { replace k with ((k - 1) + 1) at 1 by lia. rewrite Z.pow_add_r by lia. lia. }
  rewrite E, <- Z.div_div by lia.
  set (a := m / 2 ^ (k - 1)) in *.
  assert (a = 2 * (a / 2) + 1) as Heq.
  { rewrite (Z.div_mod a 2) at 1 by lia. rewrite Zdiv.Zmod_odd, Hodd. lia. }
  rewrite <- Heq. subst a. rewrite Z.mul_comm. apply Z.mul_div_le. lia.
Qed.

(** One normalisation step, with what a set round bit tells. *)
Lemma shr_fexp_round m e l :
  0 ≤ m →
  ∃ mrs e1, shr_fexp prec emax m e l = (mrs, e1) ∧ e ≤ e1 ∧
    shr_m mrs = m / 2 ^ (e1 - e) ∧
    (shr_r mrs = true →
     (e1 = e ∧ shr_r (shr_record_of_loc m l) = true) ∨
     (e < e1 ∧ (2 * (m / 2 ^ (e1 - e)) + 1) * 2 ^ (e1 - e - 1) ≤ m)).
Proof.
  intros Hm. unfold shr_fexp, shr.
  destruct (fexp64 (Zdigits2 m + e) - e) as [|p|p] eqn:E.
  - eexists _, _. split; [done|]. split; [lia|].
    rewrite shr_record_of_loc_m, Z.sub_diag, Z.pow_0_r, Z.div_1_r. split; [done|]. auto.
  - eexists _, _. split; [done|]. split; [lia|].
    replace (e + Z.pos p - e) with (Z.pos p) by lia.
    rewrite shr_m_iter, shr_iter_round_bit by (by rewrite shr_record_of_loc_m).
    rewrite shr_record_of_loc_m. split; [done|].
    intros Hodd. right. split; [lia|]. apply odd_half; [done|lia|done].
  - eexists _, _. split; [done|]. split; [lia|].
    rewrite shr_record_of_loc_m, Z.sub_diag, Z.pow_0_r, Z.div_1_r. split; [done|]. auto.
Qed.

(** Rounding to nearest goes up only on a set round bit. *)
Lemma round_nearest_even_cases mrs :
  round_nearest_even (shr_m mrs) (loc_of_shr_record mrs) = shr_m mrs ∨
  (round_nearest_even (shr_m mrs) (loc_of_shr_record mrs) = shr_m mrs + 1 ∧
   shr_r mrs = true).
Proof.
  destruct mrs as [m [] []]; simpl; auto. destruct (Z.even m); auto.
Qed.

(** The round bit a division starts from: the remainder is at least half
    the divisor. *)
Lemma new_location_round_bit q m2 rem :
  shr_r (shr_record_of_loc q (new_location m2 rem)) = true → m2 ≤ 2 * rem.
Proof.
  unfold new_location, new_location_even, new_location_odd.
  destruct (Z.even m2); destruct (rem =? 0); try done.
  - destruct (2 * rem ?= m2) eqn:E; try done; intros _.
    + apply Z.compare_eq in E. lia.
    + apply Z.compare_gt_iff in E. lia.
  - destruct (2 * rem + 1 ?= m2) eqn:E; try done; intros _.
    apply Z.compare_gt_iff in E. lia.
Qed.

(** What a finite result of [binary_round_aux] says of its input. *)
Lemma binary_round_aux_inv sx m e l sa ma ea :
  0 ≤ m → binary_round_aux prec emax sx m e l = S754_finite sa ma ea →
  ∃ e1 m2, e ≤ e1 ∧ e1 ≤ ea ∧ Z.pos ma = m2 / 2 ^ (ea - e1) ∧
    (m2 = m / 2 ^ (e1 - e) ∨
     (m2 = m / 2 ^ (e1 - e) + 1 ∧
      ((e1 = e ∧ shr_r (shr_record_of_loc m l) = true) ∨
       (e < e1 ∧ (2 * (m / 2 ^ (e1 - e)) + 1) * 2 ^ (e1 - e - 1) ≤ m)))).
Proof.
  intros Hm. unfold binary_round_aux.
  destruct (shr_fexp_round m e l Hm) as (mrs' & e1 & -> & He1 & Hm1 & Hr).
  assert (Hm1pos : 0 ≤ shr_m mrs') by (rewrite Hm1; apply Z.div_pos; lia).
  pose proof (round_nearest_even_cases mrs') as Hcases.
  set (m2 := round_nearest_even _ _) in *.
  assert (Hm2 : 0 ≤ m2) by (destruct Hcases as [->|[-> _]]; lia).
  destruct (shr_fexp_spec m2 e1 loc_Exact Hm2) as (mrs'' & e2 & -> & He2 & Hm3).
  destruct (shr_m mrs'') as [|p|p] eqn:E; [done| |done].
  destruct (_ <=? _); [|done]. intros [= <- <- <-].
  exists e1, m2. split; [done|]. split; [lia|]. split; [lia|].
  destruct Hcases as [->|[-> Hrb]]; [by left|right].
  rewrite Hm1. split; [done|]. by apply Hr.
Qed.

End RoundUp.

(** ** The step of a span between the target size and 360 degrees *)

Section Quotients.
Local Open Scope Z_scope.
Import Py.

(** Dividing two floats with full 53-bit mantissas. *)
Lemma SF64div_normal sx mx ex sy my ey :
  Z.pos (digits2_pos mx) = 53 → Z.pos (digits2_pos my) = 53 →
  -1074 ≤ ex - ey - 53 →
  SF64div (S754_finite sx mx ex) (S754_finite sy my ey)
  = binary_round_aux prec emax (xorb sx sy) (Z.pos mx * 2 ^ 53 / Z.pos my)
      (ex - ey - 53) (new_location (Z.pos my) ((Z.pos mx * 2 ^ 53) mod Z.pos my)).
Proof.
  intros Hdx Hdy He. unfold SF64div, SFdiv, SFdiv_core_binary.
  cbn [Zdigits2]. rewrite Hdx, Hdy, fexp64_eq.
  replace (Z.min (Z.max (53 + ex - (53 + ey) - 53) (-1074)) (ex - ey))
    with (ex - ey - 53) by lia.
  replace (ex - ey - (ex - ey - 53)) with 53 by lia.
  change (match 53 with
          | 0 => Z.pos mx
          | Z.pos _ => Z.shiftl (Z.pos mx) 53
          | Z.neg _ => 0
          end) with (Z.shiftl (Z.pos mx) 53).
  rewrite Z.shiftl_mul_pow2 by lia.
  unfold Z.div, Z.modulo. by destruct (Z.div_eucl _ _).
Qed.

Lemma Pos_iter_xO_value p k : Z.pos (Pos.iter xO p k) = Z.pos p * 2 ^ Z.pos k.
Proof.
  induction k as [|k IH] using Pos.peano_ind.
  - simpl. lia.
  - rewrite Pos.iter_succ, Pos2Z.inj_xO, IH, Pos2Z.inj_succ, Z.pow_succ_r by lia. lia.
Qed.

(** [float(n)] is exact up to 53 bits: the mantissa is [n] shifted to 53
    bits. *)
Lemma float_of_int_exact n :
  1 ≤ n < 2 ^ 53 →
  ∃ mn en, Prim2SF (float_of_int n) = S754_finite false mn en ∧
           Z.pos (digits2_pos mn) = 53 ∧ -52 ≤ en ≤ 0 ∧ Z.pos mn = n * 2 ^ (- en).
Proof.
  intros Hn. destruct n as [|p|p]; [lia| |lia].
  assert (Hd : Z.pos (digits2_pos p) ≤ 53) by (apply (Zdigits2_le (Z.pos p)); lia).
  assert (Hvalid : ∀ m e, Z.pos (digits2_pos m) = 53 → -1074 ≤ e ≤ 971 →
            valid_binary (S754_finite false m e) = true).
  { intros m e Hm He. unfold valid_binary, bounded, canonical_mantissa.
    rewrite Hm, fexp64_eq. change (emax - prec) with 971.
    apply andb_true_intro. split; [apply Z.eqb_eq|apply Z.leb_le]; lia. }
  unfold float_of_int, binary_normalize, binary_round, shl_align. rewrite fexp64_eq.
  replace (Z.max (Z.pos (digits2_pos p) + 0 - 53) (-1074) - 0)
    with (Z.pos (digits2_pos p) - 53) by lia.
  replace (Z.max (Z.pos (digits2_pos p) + 0 - 53) (-1074))
    with (Z.pos (digits2_pos p) - 53) by lia.
  destruct (Z.pos (digits2_pos p) - 53) as [|k|k] eqn:E; [|lia|].
  - exists p, 0. rewrite binary_round_aux_exact by lia.
    rewrite Prim2SF_SF2Prim by (apply Hvalid; lia).
    split; [done|]. split; [lia|]. split; [lia|]. simpl. lia.
  - pose proof (digits2_pos_iter_xO p k) as Hk.
    exists (Pos.iter xO p k), (Z.neg k). rewrite binary_round_aux_exact by lia.
    rewrite Prim2SF_SF2Prim by (apply Hvalid; lia).
    split; [done|]. split; [lia|]. split; [lia|]. apply Pos_iter_xO_value.
Qed.

(** A span between the target size and 360 degrees, as a float. *)
Lemma span_in_range north south :
  (0.01 <=? distance north south)%float = true →
  (distance north south <=? 360)%float = true →
  ∃ md ed, Prim2SF (distance north south) = S754_finite false md ed ∧
    Z.pos (digits2_pos md) = 53 ∧ -59 ≤ ed ≤ -44 ∧
    (ed = -59 → 5764607523034235 ≤ Z.pos md).
Proof.
  unfold distance. rewrite !FloatAxioms.leb_spec, FloatAxioms.abs_spec.
  change (Prim2SF 0.01) with (S754_finite false 5764607523034235 (-59)).
  change (Prim2SF 360) with (S754_finite false 6333186975989760 (-44)).
  pose proof (Prim2SF_valid (north - south)%float) as Hvalid.
  destruct (Prim2SF (north - south)%float) as [s|s| |s m e]; try done.
  cbn [SFabs]. unfold SFleb, SFcompare. intros Hlo Hhi.
  destruct (valid_binary_finite _ _ _ Hvalid) as [Hemin Hcanon].
  rewrite fexp64_eq in Hcanon.
  assert (Hlo' : -59 < e ∨ e = -59 ∧ 5764607523034235 ≤ Z.pos m).
  { destruct (-59 ?= e) eqn:E; [| |done].
    - apply Z.compare_eq in E. right. split; [done|].
      change (Pos.compare_cont Eq 5764607523034235 m)
        with (5764607523034235 ?= m)%positive in Hlo.
      destruct (5764607523034235 ?= m)%positive eqn:E'; [| |done].
      + apply Pos.compare_eq in E'. lia.
      + pose proof (proj1 (Pos.compare_lt_iff _ _) E'). lia.
    - left. exact (proj1 (Z.compare_lt_iff _ _) E). }
  assert (Hhi' : e ≤ -44).
  { destruct (e ?= -44) eqn:E; [apply Z.compare_eq in E; lia| |done].
    pose proof (proj1 (Z.compare_lt_iff _ _) E). lia. }
  exists m, e. split; [done|]. split; [lia|]. split; [lia|]. lia.
Qed.

(** The arithmetic of the count: a quotient rounded to nearest and then
    truncated exceeds the exact quotient by less than one part in
    [M - 1], [M] the mantissa of 0.01. *)
Lemma count_times_target md ed e1 m2 mq eq N :
  let M := 5764607523034235 in
  let qc := md * 2 ^ 53 / M in
  let rem := (md * 2 ^ 53) mod M in
  let e' := ed + 6 in
  2 ^ 52 ≤ md → -59 ≤ ed ≤ -44 →
  e' ≤ e1 → e1 ≤ eq → mq = m2 / 2 ^ (eq - e1) → 2 ^ 52 ≤ mq →
  (m2 = qc / 2 ^ (e1 - e') ∨
   (m2 = qc / 2 ^ (e1 - e') + 1 ∧
    ((e1 = e' ∧ M ≤ 2 * rem) ∨
     (e' < e1 ∧ (2 * (qc / 2 ^ (e1 - e')) + 1) * 2 ^ (e1 - e' - 1) ≤ qc)))) →
  (0 ≤ eq ∧ N = mq * 2 ^ eq ∨ eq < 0 ∧ N = mq / 2 ^ (- eq)) →
  N * (M - 1) ≤ md * 2 ^ (ed + 59).
Proof.
  intros M qc rem e' Hmd Hed He1 Heq Hmq Hmq52 Hm2 HN.
  change (2 ^ 52) with 4503599627370496 in *.
  set (A := 2 ^ (- e')). set (C := 2 ^ (ed + 59)).
  set (K := 2 ^ (e1 - e')) in *. set (J := 2 ^ (eq - e1)) in *.
  assert (HA : 0 < A) by (apply Z.pow_pos_nonneg; lia).
  assert (HC : 0 < C) by (apply Z.pow_pos_nonneg; lia).
  assert (HK : 0 < K) by (apply Z.pow_pos_nonneg; lia).
  assert (HJ : 0 < J) by (apply Z.pow_pos_nonneg; lia).
  assert (HCA : C * A = 2 ^ 53).
  { subst C A e'. rewrite <- Z.pow_add_r by lia. f_equal. lia. }
  assert (Hdiv : md * 2 ^ 53 = M * qc + rem ∧ 0 ≤ rem < M).
  { split; [apply Z.div_mod; subst M; lia|apply Z.mod_pos_bound; subst M; lia]. }
  destruct Hdiv as [Hdiv Hrem].
  assert (Hqc : 0 ≤ qc) by (apply Z.div_pos; subst M; lia).
  assert (Hm1 : qc / K * K ≤ qc) by (rewrite Z.mul_comm; apply Z.mul_div_le; lia).
  assert (Hm1pos : 0 ≤ qc / K) by (apply Z.div_pos; lia).
  assert (H3 : mq * J ≤ m2).
  { rewrite Hmq, Z.mul_comm. apply Z.mul_div_le. lia. }
  assert (Hm2pos : 4503599627370496 ≤ m2) by nia.
  assert (H2 : N * A ≤ mq * J * K).
  { assert (J * K = 2 ^ (eq - e')) as HJK.
    { subst J K. rewrite <- Z.pow_add_r by lia. f_equal. lia. }
    rewrite <- Z.mul_assoc, HJK.
    destruct HN as [[Hpos ->]|[Hneg ->]].
    - replace (eq - e') with (eq + - e') by lia. rewrite Z.pow_add_r by lia.
      fold A. lia.
    - assert (A = 2 ^ (- eq) * 2 ^ (eq - e')) as ->.
      { subst A. rewrite <- Z.pow_add_r by lia. f_equal. lia. }
      rewrite Z.mul_assoc. apply Z.mul_le_mono_nonneg_r; [apply Z.pow_nonneg; lia|].
      rewrite Z.mul_comm. apply Z.mul_div_le. apply Z.pow_pos_nonneg; lia. }
  assert (H4 : m2 * K * (M - 1) ≤ M * qc + rem).
  { destruct Hm2 as [->|[-> [[He HM]|[He Hhalf]]]].
    - subst M. nia.
    - assert (K = 1) as -> by (subst K; rewrite He, Z.sub_diag; done).
      rewrite Z.div_1_r in *. subst M. nia.
    - set (H := 2 ^ (e1 - e' - 1)) in *.
      assert (HH : 0 < H) by (apply Z.pow_pos_nonneg; lia).
      assert (K = 2 * H) as HKH.
      { subst K H. rewrite <- (Z.pow_succ_r 2) by lia. f_equal. lia. }
      rewrite HKH in *. subst M. nia. }
  apply (Z.mul_le_mono_pos_r _ _ A HA).
  rewrite <- (Z.mul_assoc md), HCA, Hdiv. subst M. nia.
Qed.

(** The count of a span between the target size and 360 degrees: at least
    1, below 2^53, and [count × pred(0.01) ≤ span] in exact arithmetic. *)
Lemma count_bound north south :
  (0.01 <=? distance north south)%float = true →
  (distance north south <=? 360)%float = true →
  ∃ md ed, Prim2SF (distance north south) = S754_finite false md ed ∧
    Z.pos (digits2_pos md) = 53 ∧ -59 ≤ ed ≤ -44 ∧
    let N := Z.max 1 (trunc (distance north south / 0.01)) in
    1 ≤ N < 2 ^ 17 ∧ N * (5764607523034235 - 1) ≤ Z.pos md * 2 ^ (ed + 59).
Proof.
  intros Hlo Hhi.
  destruct (span_in_range _ _ Hlo Hhi) as (md & ed & Hd & Hdig & Hed & Hmd).
  exists md, ed. split; [done|]. split; [done|]. split; [done|].
  pose proof (quotient_below _ (span_below _ _ Hhi)) as Hq.
  pose proof (trunc_below 17 _ ltac:(lia) Hq) as Htrunc.
  pose proof (digits2_pos_bounds md) as [Hmd52 _]. rewrite Hdig in Hmd52.
  change (2 ^ (53 - 1)) with (2 ^ 52) in Hmd52.
  intros N. split.
  { subst N. assert (1 < 2 ^ 17) by (by apply Z.pow_gt_1). lia. }
  destruct (Z.max_spec 1 (trunc (distance north south / 0.01)%float))
    as [[Hgt HN]|[_ HN]]; fold N in HN; rewrite HN.
  2:{ change (2 ^ 52) with 4503599627370496 in Hmd52.
      destruct (decide (ed = -59)) as [Heq|Hne];
        [specialize (Hmd Heq); subst ed; change (2 ^ (-59 + 59)) with 1; lia|].
      assert (2 ^ 1 ≤ 2 ^ (ed + 59)) by (apply Z.pow_le_mono_r; lia). nia. }
  pose proof (Prim2SF_valid (distance north south / 0.01)%float) as Hvalid.
  pose proof (quotient_sign north south) as Hsign.
  unfold trunc in *.
  rewrite FloatAxioms.div_spec, Hd in *.
  change (Prim2SF 0.01) with (S754_finite false 5764607523034235 (-59)) in *.
  rewrite SF64div_normal in * by (done || lia).
  replace (ed - -59 - 53) with (ed + 6) in * by lia.
  destruct (binary_round_aux _ _ _ _ _ _) as [s|s| |sq mq eq] eqn:R; try lia.
  subst sq. cbn [cond_Zopp] in *.
  apply binary_round_aux_inv in R as (e1 & m2 & He1 & Heq & Hmq & Hm2);
    [|apply Z.div_pos; lia].
  destruct (valid_binary_finite _ _ _ Hvalid) as [_ Hcanon].
  rewrite fexp64_eq in Hcanon.
  pose proof (digits2_pos_bounds mq) as [Hmq52 _].
  assert (Hdq : Z.pos (digits2_pos mq) = 53) by lia. rewrite Hdq in Hmq52.
  change (2 ^ (53 - 1)) with (2 ^ 52) in Hmq52.
  apply (count_times_target (Z.pos md) ed e1 m2 (Z.pos mq) eq); try done.
  - destruct Hm2 as [?|[? [[? Hr]|?]]]; [by left|right..].
    + split; [done|]. left. split; [done|]. by apply new_location_round_bit in Hr.
    + split; [done|]. by right.
  - destruct eq as [|p|p]; [left|left|right]; (split; [lia|]).
    + by rewrite Z.pow_0_r, Z.mul_1_r.
    + done.
    + done.
Qed.

(** The arithmetic of the step: the quotient of the span by the count,
    cut at the exponent [-59 - g], is at least the mantissa of
    [pred(0.01)] shifted by [g]. *)
Lemma step_mantissa md ed N mn en g j :
  N * (5764607523034235 - 1) ≤ md * 2 ^ (ed + 59) →
  0 < mn → mn = N * 2 ^ (- en) → en ≤ 0 → -59 ≤ ed ≤ -44 →
  0 ≤ g → 0 ≤ j → g + j = -6 - ed + en →
  (5764607523034235 - 1) * 2 ^ g ≤ md * 2 ^ 53 / mn / 2 ^ j.
Proof.
  intros HN Hmn Hmn' Hen Hed Hg Hj Hgj.
  assert (HJ : 0 < 2 ^ j) by (apply Z.pow_pos_nonneg; lia).
  rewrite Z.div_div by lia. apply Z.div_le_lower_bound; [lia|].
  assert (HE : 0 < 2 ^ (- en)) by (apply Z.pow_pos_nonneg; lia).
  assert (HW : 0 < 2 ^ (-6 - ed)) by (apply Z.pow_pos_nonneg; lia).
  assert (2 ^ (ed + 59) * 2 ^ (-6 - ed) = 2 ^ 53) as H53.
  { rewrite <- Z.pow_add_r by lia. f_equal. lia. }
  assert (2 ^ (- en) * (2 ^ j * 2 ^ g) = 2 ^ (-6 - ed)) as Hw.
  { rewrite <- !Z.pow_add_r by lia. f_equal. lia. }
  rewrite Hmn', <- H53.
  transitivity (N * (5764607523034235 - 1) * 2 ^ (-6 - ed)); [|nia].
  rewrite <- Hw. lia.
Qed.

(** The step of a span between the target size and 360 degrees is at
    least the binary64 number just below 0.01. *)
Lemma step_above north south :
  (0.01 <=? distance north south)%float = true →
  (distance north south <=? 360)%float = true →
  (next_down 0.01
   <=? distance north south
       / float_of_int (Z.max 1 (trunc (distance north south / 0.01))))%float = true.
Proof.
  intros Hlo Hhi.
  destruct (count_bound _ _ Hlo Hhi) as (md & ed & Hd & Hdig & Hed & H).
  cbv zeta in H. destruct H as [HN Hbound].
  set (N := Z.max 1 _) in *.
  assert (HN53 : 1 ≤ N < 2 ^ 53).
  { assert (2 ^ 17 < 2 ^ 53) by (by apply Z.pow_lt_mono_r). lia. }
  destruct (float_of_int_exact N HN53) as (mn & en & Hn & Hdn & Hen & Hmn).
  pose proof (step_below _ N (span_below _ _ Hhi) HN53) as Hbelow.
  pose proof (Prim2SF_valid (distance north south / float_of_int N)%float) as Hvalid.
  rewrite FloatAxioms.leb_spec.
  change (Prim2SF (next_down 0.01)) with (S754_finite false 5764607523034234 (-59)).
  rewrite FloatAxioms.div_spec, Hd, Hn in *.
  rewrite SF64div_normal in * by (done || lia).
  cbn [xorb] in *.
  set (q := Z.pos md * 2 ^ 53 / Z.pos mn) in *.
  set (e := ed - en - 53) in *.
  set (l := new_location _ _) in *.
  pose proof (digits2_pos_bounds md) as [Hmd52 _]. rewrite Hdig in Hmd52.
  pose proof (digits2_pos_bounds mn) as [_ Hmn53]. rewrite Hdn in Hmn53.
  assert (Hq : 0 < q).
  { apply Z.div_str_pos. split; [lia|].
    assert (0 < 2 ^ 53) by (by apply Z.pow_pos_nonneg). nia. }
  pose proof (binary_round_aux_nonzero false q e l) as Hnz.
  pose proof (binary_round_aux_sign q e l) as Hsign.
  destruct (binary_round_aux _ _ _ _ _ _) as [s|s| |ss ms es] eqn:R; try done.
  { by destruct (Hnz s); [|subst e; lia|]. }
  subst ss.
  apply binary_round_aux_inv in R as (e1 & m2 & He1 & Hes & Hms & Hm2); [|lia].
  destruct (valid_binary_finite _ _ _ Hvalid) as [Hes' Hcanon].
  rewrite fexp64_eq in Hcanon.
  pose proof (digits2_pos_bounds ms) as [_ Hms53].
  assert (Hms' : Z.pos ms < 2 ^ 53).
  { eapply Z.lt_le_trans; [exact Hms53|]. apply Z.pow_le_mono_r; lia. }
  assert (Hlow : q / 2 ^ (es - e) ≤ Z.pos ms).
  { rewrite Hms. replace (es - e) with ((e1 - e) + (es - e1)) by lia.
    rewrite Z.pow_add_r, <- Z.div_div by (try apply Z.pow_pos_nonneg; lia).
    apply Z.div_le_mono; [apply Z.pow_pos_nonneg; lia|].
    destruct Hm2 as [->|[-> _]]; lia. }
  cbn [SFleb SFcompare].
  destruct (Z.compare_spec (-59) es) as [Heq|Hlt|Hgt]; [|done|].
  - subst es.
    pose proof (step_mantissa (Z.pos md) ed N (Z.pos mn) en 0 (-59 - e)
                  Hbound ltac:(lia) Hmn ltac:(lia) Hed ltac:(lia) ltac:(lia)
                  ltac:(subst e; lia)) as Hm.
    fold q in Hm. rewrite Z.pow_0_r, Z.mul_1_r in Hm.
    assert (5764607523034234 ≤ Z.pos ms) as Hle by lia.
    rewrite Pos.compare_cont_spec. cbn [Pos.switch_Eq].
    destruct (5764607523034234 ?= ms)%positive eqn:C; [reflexivity..|].
    apply Pos.compare_gt_iff, Pos2Z.pos_lt_pos in C.
    destruct (Z.lt_irrefl _ (Z.lt_le_trans _ _ _ C Hle)).
  - exfalso.
    pose proof (step_mantissa (Z.pos md) ed N (Z.pos mn) en (-59 - es) (es - e)
                  Hbound ltac:(lia) Hmn ltac:(lia) Hed ltac:(lia) ltac:(lia)
                  ltac:(subst e; lia)) as Hm.
    fold q in Hm.
    assert (2 ^ 1 ≤ 2 ^ (-59 - es)) by (apply Z.pow_le_mono_r; lia).
    change (2 ^ 53) with 9007199254740992 in Hms'.
    change (2 ^ 1) with 2 in *. nia.
Qed.

(** The number just below the target, and a step that attains it. *)
Lemma next_down_target :
  next_down 0.01 = 0.009999999999999998%float ∧
  (distance 0.69 0 / float_of_int 69)%float = next_down 0.01.
Proof. split; reflexivity. Qed.

End Quotients.

(** * The claims *)

Section PartitionerClaims.
  Local Open Scope float_scope.
  Import Py.

(** C1, as the code has it: every section the partitioner produces carries
    the scraper's fixed [MIN_ZOOM_LEVEL] (15 for a scraper built by
    [__init__]), the same value for all cells, whatever zoom argument was
    passed in. *)
Theorem section_zoom_is_min_zoom_level self north east south west initial_zoom sec :
  sec ∈ returned (calculate_zoom_sections self north east south west initial_zoom) →
  zoom sec = MIN_ZOOM_LEVEL self ∧ (∀ wait, self = init wait → zoom sec = 15%Z).
Proof.
  intros Hsec.
  assert (zoom sec = MIN_ZOOM_LEVEL self) as ->; [|split; [done|by intros wait ->]].
  destruct (calculate_zoom_sections _ _ _ _ _ _) as [sections|] eqn:E; simpl in Hsec.
  - apply calculate_zoom_sections_Ok in E as (_ & _ & ->).
    apply list_elem_of_bind in Hsec as (i & Hsec & _).
    apply list_elem_of_fmap in Hsec as (j & -> & _). done.
  - by apply elem_of_nil in Hsec.
Qed.

Lemma section_zoom_is_min_zoom_level_witness :
  zoom {| ne_lat := 0.01; sw_lat := 0; ne_long := 0.01; sw_long := 0; zoom := 15 |}
  = MIN_ZOOM_LEVEL (init (2, 5)%Z).
Proof.
  apply (section_zoom_is_min_zoom_level (init (2, 5)%Z) 0.01 0.01 0 0 13%Z).
  vm_compute. constructor.
Defined.

(** C1 as stated fails: called with zoom 13, the partitioner tags its
    sections with 15. *)
Lemma section_zoom_not_the_argument :
  ¬ Forall (λ sec, zoom sec = 13%Z)
      (returned (calculate_zoom_sections (init (2, 5)%Z) 0.01 0.01 0 0 13%Z)).
Proof.
  assert (returned (calculate_zoom_sections (init (2, 5)%Z) 0.01 0.01 0 0 13%Z)
          = [{| ne_lat := 0.01; sw_lat := 0; ne_long := 0.01; sw_long := 0;
                zoom := 15 |}]) as -> by (vm_compute; reflexivity).
  intros H. by apply Forall_cons in H as [? _].
Qed.

(** C2, as the code has it: when the latitude span is zero and the
    longitude span is zero, the partitioner returns exactly one section,
    whose four bounds equal the input's. *)
Theorem degenerate_box_one_section self north east south west initial_zoom :
  distance north south = 0 → distance east west = 0 →
  ∃ sec,
    calculate_zoom_sections self north east south west initial_zoom = Ok [sec] ∧
    (ne_lat sec =? north) = true ∧ (sw_lat sec =? south) = true ∧
    (ne_long sec =? east) = true ∧ (sw_long sec =? west) = true.
Proof.
  intros Dlat Dlong.
  destruct (distance_zero_inv _ _ Dlat) as [Hs Hlat].
  destruct (distance_zero_inv _ _ Dlong) as [Hw Hlong].
  unfold calculate_zoom_sections. rewrite Dlat, Dlong, sections_count_zero.
  eexists. split; [reflexivity|]. cbn [ne_lat sw_lat ne_long sw_long section_at].
  change (Z.of_nat 0 + 0 + 1)%Z with (0 + 1)%Z. change (Z.of_nat 0 + 0)%Z with 0%Z.
  rewrite step_zero, far_edge_zero, near_edge_zero.
  split_and!; apply add_zero_eqb; auto using eqb_finite_refl.
Qed.

Lemma degenerate_box_one_section_witness :
  ∃ sec,
    calculate_zoom_sections (init (2, 5)%Z) 40.5 (-74.25) 40.5 (-74.25) 13%Z = Ok [sec] ∧
    (ne_lat sec =? 40.5) = true ∧ (sw_lat sec =? 40.5) = true ∧
    (ne_long sec =? -74.25) = true ∧ (sw_long sec =? -74.25) = true.
Proof.
  apply (degenerate_box_one_section (init (2, 5)%Z) 40.5 (-74.25) 40.5 (-74.25) 13%Z);
    reflexivity.
Defined.

(** C2 as stated fails: with a zero latitude span and a longitude span of
    0.05 the partitioner returns five sections, not one. *)
Lemma zero_span_several_sections :
  distance 0 0 = 0 ∧
  ¬ ∃ sec, calculate_zoom_sections (init (2, 5)%Z) 0 0.05 0 0 13%Z = Ok [sec].
Proof.
  split; [reflexivity|]. intros [sec H].
  apply (f_equal (λ r, length (returned r))) in H. vm_compute in H. discriminate.
Qed.

(** The grid the two loops build, for a box whose two quotients
    span / 0.01 are finite floats. *)
Lemma grid_of_finite_quotients self north east south west initial_zoom :
  let lat_distance := distance north south in
  let long_distance := distance east west in
  let rows := Z.max 1 (trunc (lat_distance / 0.01)) in
  let columns := Z.max 1 (trunc (long_distance / 0.01)) in
  let lat_step := lat_distance / float_of_int rows in
  let long_step := long_distance / float_of_int columns in
  is_finite (lat_distance / 0.01) = true →
  is_finite (long_distance / 0.01) = true →
  ∃ sections,
    calculate_zoom_sections self north east south west initial_zoom = Ok sections ∧
    Z.of_nat (length sections) = (rows * columns)%Z ∧
    (1 ≤ rows)%Z ∧ (1 ≤ columns)%Z ∧ sections ≠ [] ∧
    ∀ i j, (0 ≤ i < rows)%Z → (0 ≤ j < columns)%Z →
      sections !! Z.to_nat (i * columns + j)
      = Some {| ne_lat := south + float_of_int (i + 1) * lat_step;
                sw_lat := south + float_of_int i * lat_step;
                ne_long := west + float_of_int (j + 1) * long_step;
                sw_long := west + float_of_int j * long_step;
                zoom := MIN_ZOOM_LEVEL self |}.
Proof.
  intros lat_distance long_distance rows columns lat_step long_step Hlat Hlong.
  eexists. split; [by apply calculate_zoom_sections_finite|].
  fold lat_distance long_distance rows columns lat_step long_step.
  assert (Hlen : Z.of_nat (length (range rows ≫= λ i,
             section_at self south west lat_step long_step i <$> range columns))
           = (rows * columns)%Z) by (apply range_grid_length; lia).
  split_and!; [done|lia|lia| |].
  - intros E. rewrite E in Hlen. simpl in Hlen. nia.
  - intros i j Hi Hj.
    by rewrite (range_grid_lookup (section_at self south west lat_step long_step)).
Qed.

(** C3: for every bounding box in degrees (its latitude and longitude
    spans are at most 360), the partitioner returns, and produces exactly
    rows × columns sections, rows = max(1, floor(latSpan / 0.01)) and
    columns = max(1, floor(lonSpan / 0.01)), the section of row i and
    column j spanning south + i·latStep to south + (i+1)·latStep and
    west + j·lonStep to west + (j+1)·lonStep with the uniform steps
    latStep = latSpan / rows and lonStep = lonSpan / columns; rows ≥ 1,
    columns ≥ 1 and the result is not empty. *)
Theorem grid_shape self north east south west initial_zoom :
  let lat_distance := distance north south in
  let long_distance := distance east west in
  let rows := Z.max 1 (trunc (lat_distance / 0.01)) in
  let columns := Z.max 1 (trunc (long_distance / 0.01)) in
  let lat_step := lat_distance / float_of_int rows in
  let long_step := long_distance / float_of_int columns in
  (lat_distance <=? 360) = true → (long_distance <=? 360) = true →
  ∃ sections,
    calculate_zoom_sections self north east south west initial_zoom = Ok sections ∧
    Z.of_nat (length sections) = (rows * columns)%Z ∧
    (1 ≤ rows)%Z ∧ (1 ≤ columns)%Z ∧ sections ≠ [] ∧
    ∀ i j, (0 ≤ i < rows)%Z → (0 ≤ j < columns)%Z →
      sections !! Z.to_nat (i * columns + j)
      = Some {| ne_lat := south + float_of_int (i + 1) * lat_step;
                sw_lat := south + float_of_int i * lat_step;
                ne_long := west + float_of_int (j + 1) * long_step;
                sw_long := west + float_of_int j * long_step;
                zoom := MIN_ZOOM_LEVEL self |}.
Proof.
  intros lat_distance long_distance rows columns lat_step long_step Hlat Hlong.
  apply grid_of_finite_quotients.
  - by destruct (span_in_degrees north south Hlat).
  - by destruct (span_in_degrees east west Hlong).
Qed.

Lemma grid_shape_witness :
  (distance 0.02 0 <=? 360) = true ∧ (distance 0.03 0 <=? 360) = true ∧
  ∃ sections,
    calculate_zoom_sections (init (2, 5)%Z) 0.02 0.03 0 0 13%Z = Ok sections ∧
    Z.of_nat (length sections) = 6%Z.
Proof.
  split; [reflexivity|]. split; [reflexivity|].
  destruct (grid_shape (init (2, 5)%Z) 0.02 0.03 0 0 13%Z)
    as (sections & E & Hlen & _); [reflexivity..|].
  exists sections. split; [exact E|exact Hlen].
Defined.

(** Beyond degrees the partitioner is partial: a span of 1e307 has an
    infinite quotient, [int] raises [OverflowError] and no section is
    produced. *)
Lemma huge_span_overflows :
  (0 <? 1e307) = true ∧ (0 <? 1) = true ∧
  calculate_zoom_sections (init (2, 5)%Z) 1e307 1 0 0 13%Z = Raise OverflowError.
Proof. by vm_compute. Qed.

(** The count is the quotient rounded down, never to nearest or up: it is
    at least 1 and, unless it is 1, at most the quotient. *)
Lemma count_rounds_down north south n :
  sections_count (distance north south) = Ok n →
  (1 ≤ n)%Z ∧ (n = 1%Z ∨ (inject_Z n <= value (distance north south / 0.01))%Q).
Proof.
  intros (Hfin & ->)%sections_count_Ok. split; [lia|].
  destruct (Z.max_spec 1 (trunc (distance north south / 0.01))) as [[_ ->]|[_ ->]];
    [right|by left].
  apply trunc_le_value, quotient_sign.
Qed.

(** C4, as the code has it: for every bounding box whose latitude span and
    longitude span are each at least the target cell size 0.01 (and at most
    360 degrees), the partitioner returns, every produced cell is laid out
    with the steps latStep = latSpan / rows and lonStep = lonSpan / columns
    of the floor-based counts rows = max(1, floor(latSpan / 0.01)) and
    columns = max(1, floor(lonSpan / 0.01)), and latStep and lonStep are
    each at least 0.0099999999999999985, the binary64 number just below
    0.01: the quotient span / count is rounded to nearest, so a step can be
    one unit in the last place smaller than the target, and never more. *)
Theorem step_within_ulp_of_target self north east south west initial_zoom :
  let lat_distance := distance north south in
  let long_distance := distance east west in
  let rows := Z.max 1 (trunc (lat_distance / 0.01)) in
  let columns := Z.max 1 (trunc (long_distance / 0.01)) in
  let lat_step := lat_distance / float_of_int rows in
  let long_step := long_distance / float_of_int columns in
  (0.01 <=? lat_distance) = true → (lat_distance <=? 360) = true →
  (0.01 <=? long_distance) = true → (long_distance <=? 360) = true →
  sections_count lat_distance = Ok rows ∧
  sections_count long_distance = Ok columns ∧
  (∃ sections,
     calculate_zoom_sections self north east south west initial_zoom = Ok sections ∧
     ∀ sec, sec ∈ sections →
       ∃ i j, (0 ≤ i < rows)%Z ∧ (0 ≤ j < columns)%Z ∧
              sec = section_at self south west lat_step long_step i j) ∧
  (next_down 0.01 <=? lat_step) = true ∧
  (next_down 0.01 <=? long_step) = true.
Proof.
  intros lat_distance long_distance rows columns lat_step long_step
    Hlat Hlat' Hlong Hlong'.
  destruct (span_in_degrees north south Hlat') as [Hflat _].
  destruct (span_in_degrees east west Hlong') as [Hflong _].
  split_and!.
  - by apply sections_count_finite.
  - by apply sections_count_finite.
  - eexists. split; [by apply calculate_zoom_sections_finite|].
    fold lat_distance long_distance rows columns lat_step long_step.
    intros sec (i & (j & -> & Hj)%list_elem_of_fmap & Hi)%list_elem_of_bind.
    exists i, j. unfold range in Hi, Hj.
    apply elem_of_seqZ in Hi, Hj. split_and!; [lia..|done].
  - by apply step_above.
  - by apply step_above.
Qed.

Lemma step_within_ulp_of_target_witness :
  (0.01 <=? distance 0.69 0) = true ∧ (distance 0.69 0 <=? 360) = true ∧
  (0.01 <=? distance 0.03 0) = true ∧ (distance 0.03 0 <=? 360) = true ∧
  sections_count (distance 0.69 0) = Ok 69%Z ∧
  (next_down 0.01 <=? distance 0.69 0 / float_of_int 69) = true ∧
  (next_down 0.01 <=? distance 0.03 0 / float_of_int 3) = true.
Proof.
  do 4 (split; [reflexivity|]).
  destruct (step_within_ulp_of_target (init (2, 5)%Z) 0.69 0.03 0 0 13%Z)
    as (Hrows & _ & _ & Hlat & Hlong); [reflexivity..|].
  exact (conj Hrows (conj Hlat Hlong)).
Defined.

(** C4 as stated fails: a latitude span of 0.69 is above the target size,
    it is cut into 69 rows, and every row is 0.0099999999999999985 degrees
    high, less than 0.01. *)
Lemma cell_below_target :
  (0.01 <=? distance 0.69 0) = true ∧ (0.01 <=? distance 0.01 0) = true ∧
  sections_count (distance 0.69 0) = Ok 69%Z ∧
  (distance 0.69 0 / float_of_int 69 <? 0.01) = true ∧
  ∃ sec, head (returned (calculate_zoom_sections (init (2, 5)%Z) 0.69 0.01 0 0 13%Z))
         = Some sec ∧
         (ne_lat sec - sw_lat sec <? 0.01) = true.
Proof. split_and!; [reflexivity..|]. eexists. split; [by vm_compute|reflexivity]. Qed.

(** C6: the partitioner emits its sections in row-major order, rows outer
    and columns inner: the k-th emitted section is the cell of row
    k / columns and column k mod columns, rows counted from the south edge
    and columns from the west edge in steps of latStep and lonStep, so the
    first one is the cell of row 0 and column 0; the sequence is a function
    of the input. *)
Theorem row_major_order self north east south west initial_zoom k sec :
  let lat_distance := distance north south in
  let long_distance := distance east west in
  let rows := Z.max 1 (trunc (lat_distance / 0.01)) in
  let columns := Z.max 1 (trunc (long_distance / 0.01)) in
  let lat_step := lat_distance / float_of_int rows in
  let long_step := long_distance / float_of_int columns in
  let emitted :=
    returned (calculate_zoom_sections self north east south west initial_zoom) in
  let i := (Z.of_nat k / columns)%Z in
  let j := (Z.of_nat k mod columns)%Z in
  emitted !! k = Some sec →
  (0 ≤ i < rows)%Z ∧ (0 ≤ j < columns)%Z ∧
  sec = {| ne_lat := south + float_of_int (i + 1) * lat_step;
           sw_lat := south + float_of_int i * lat_step;
           ne_long := west + float_of_int (j + 1) * long_step;
           sw_long := west + float_of_int j * long_step;
           zoom := MIN_ZOOM_LEVEL self |} ∧
  head emitted = Some {| ne_lat := south + float_of_int (0 + 1) * lat_step;
                         sw_lat := south + float_of_int 0 * lat_step;
                         ne_long := west + float_of_int (0 + 1) * long_step;
                         sw_long := west + float_of_int 0 * long_step;
                         zoom := MIN_ZOOM_LEVEL self |} ∧
  ∀ again, again = calculate_zoom_sections self north east south west initial_zoom →
           returned again = emitted.
Proof.
  intros lat_distance long_distance rows columns lat_step long_step emitted i j Hk.
  assert (emitted = (range rows ≫= λ i,
            section_at self south west lat_step long_step i <$> range columns)) as E.
  { subst emitted.
    destruct (calculate_zoom_sections _ _ _ _ _ _) as [sections|] eqn:E; [|done].
    by apply calculate_zoom_sections_Ok in E as (_ & _ & ->). }
  assert (Hlen : Z.of_nat (length emitted) = (rows * columns)%Z)
    by (rewrite E; apply range_grid_length; lia).
  apply lookup_lt_Some in Hk as Hlt.
  assert (Hj : (0 ≤ j < columns)%Z) by (apply Z.mod_pos_bound; lia).
  assert (Hi : (0 ≤ i < rows)%Z).
  { split; [apply Z.div_pos; lia|]. apply Z.div_lt_upper_bound; lia. }
  assert (Hcell : ∀ i j, (0 ≤ i < rows)%Z → (0 ≤ j < columns)%Z →
            emitted !! Z.to_nat (i * columns + j)
            = Some (section_at self south west lat_step long_step i j)).
  { intros i' j' Hi' Hj'. rewrite E. by apply range_grid_lookup. }
  split_and!; try lia.
  - specialize (Hcell i j Hi Hj).
    replace (Z.to_nat (i * columns + j)) with k in Hcell; [by simplify_eq|].
    subst i j. rewrite Z.mul_comm, <- Z.div_mod by lia. by rewrite Nat2Z.id.
  - rewrite head_lookup. apply (Hcell 0%Z 0%Z); lia.
  - by intros again ->.
Qed.

Lemma row_major_order_witness :
  returned (calculate_zoom_sections (init (2, 5)%Z) 0.02 0.03 0 0 13%Z) !! 4%nat
  = Some {| ne_lat := 0.02; sw_lat := 0.01; ne_long := 0.02; sw_long := 0.01;
            zoom := 15 |}
  ∧ (0 ≤ 4 / 3 < 2)%Z.
Proof.
  assert (Hk : returned (calculate_zoom_sections (init (2, 5)%Z) 0.02 0.03 0 0 13%Z)
                 !! 4%nat
               = Some {| ne_lat := 0.02; sw_lat := 0.01; ne_long := 0.02;
                         sw_long := 0.01; zoom := 15 |}) by (vm_compute; reflexivity).
  split; [exact Hk|].
  exact (proj1 (row_major_order (init (2, 5)%Z) 0.02 0.03 0 0 13%Z 4 _ Hk)).
Defined.

(** C5, as the code has it: for a box whose spans are at most 360 degrees,
    row i's north edge is row i+1's south edge and column j's east edge is
    column j+1's west edge, bit for bit; the first row starts at the
    input's south edge and the first column at its west edge.  (The outer
    north and east edges are south + rows·latStep and west +
    columns·lonStep, which match the input's only up to rounding.) *)
Theorem sections_share_edges self north east south west initial_zoom i j :
  let lat_distance := distance north south in
  let long_distance := distance east west in
  let rows := Z.max 1 (trunc (lat_distance / 0.01)) in
  let columns := Z.max 1 (trunc (long_distance / 0.01)) in
  let lat_step := lat_distance / float_of_int rows in
  let long_step := long_distance / float_of_int columns in
  let emitted :=
    returned (calculate_zoom_sections self north east south west initial_zoom) in
  (lat_distance <=? 360) = true → (long_distance <=? 360) = true →
  (0 ≤ i < rows)%Z → (0 ≤ j < columns)%Z →
  ∃ sec,
    emitted !! Z.to_nat (i * columns + j) = Some sec ∧
    ((i + 1 < rows)%Z →
       ∃ above, emitted !! Z.to_nat ((i + 1) * columns + j) = Some above ∧
                ne_lat sec = sw_lat above) ∧
    ((j + 1 < columns)%Z →
       ∃ right, emitted !! Z.to_nat (i * columns + (j + 1)) = Some right ∧
                ne_long sec = sw_long right) ∧
    (i = 0%Z → (sw_lat sec =? south) = true) ∧
    (j = 0%Z → (sw_long sec =? west) = true) ∧
    ((i + 1)%Z = rows → ne_lat sec = south + float_of_int rows * lat_step) ∧
    ((j + 1)%Z = columns → ne_long sec = west + float_of_int columns * long_step).
Proof.
  intros lat_distance long_distance rows columns lat_step long_step emitted
         Hlat360 Hlong360 Hi Hj.
  destruct (span_in_degrees north south Hlat360) as [Hlat Hlat_step].
  destruct (span_in_degrees east west Hlong360) as [Hlong Hlong_step].
  assert (Hcell : ∀ i j, (0 ≤ i < rows)%Z → (0 ≤ j < columns)%Z →
            emitted !! Z.to_nat (i * columns + j)
            = Some (section_at self south west lat_step long_step i j)).
  { intros i' j' Hi' Hj'. subst emitted.
    rewrite (calculate_zoom_sections_finite self north east south west initial_zoom Hlat Hlong).
    by apply range_grid_lookup. }
  destruct (finite_quotient_bounds _ _ Hlat) as [_ Hsouth].
  destruct (finite_quotient_bounds _ _ Hlong) as [_ Hwest].
  eexists. split; [by apply Hcell|]. split_and!.
  - intros Hi'. eexists. split; [apply Hcell; lia|done].
  - intros Hj'. eexists. split; [apply Hcell; lia|done].
  - intros ->. by apply near_edge_eqb.
  - intros ->. by apply near_edge_eqb.
  - intros <-. done.
  - intros <-. done.
Qed.

Lemma sections_share_edges_witness :
  ∃ sec,
    returned (calculate_zoom_sections (init (2, 5)%Z) 0.02 0.03 0 0 13%Z) !! 0%nat
    = Some sec ∧
    (sw_lat sec =? 0) = true.
Proof.
  destruct (sections_share_edges (init (2, 5)%Z) 0.02 0.03 0 0 13%Z 0 0)
    as (sec & Hsec & _ & _ & Hsouth & _); [reflexivity..|lia|lia|].
  exists sec. split; [exact Hsec|by apply Hsouth].
Defined.

(** C5 as stated fails: for the box from (0, 0) to (0.35, 0.01) the last of
    the 35 rows ends at 0.35000000000000003, north of the input's north
    edge 0.35: the sections do not make up the input box exactly. *)
Lemma outer_edge_off_the_box :
  (0 <? 0.35) = true ∧ (0 <? 0.01) = true ∧
  ∃ sec,
    last (returned (calculate_zoom_sections (init (2, 5)%Z) 0.35 0.01 0 0 13%Z))
    = Some sec ∧
    (ne_lat sec =? 0.35) = false ∧ (0.35 <? ne_lat sec) = true.
Proof.
  split_and!; [reflexivity..|]. eexists. split; [by vm_compute|].
  split; reflexivity.
Qed.

End PartitionerClaims.

Section CollectorClaims.

(** C7: deduplication keeps a record iff its identifier is non-empty and
    has not occurred earlier in the sequence ([first_occurrences] is that
    rule); what it keeps stays in the order of the input; and the example
    a, b, a, None, b gives a, b. *)
Theorem dedupe_keeps_first_occurrences (records : list ListingRecord) :
  dedupe records = first_occurrences [] records ∧
  sublist (dedupe records) records ∧
  dedupe [record_with_id (PyStr "a"); record_with_id (PyStr "b");
          record_with_id (PyStr "a"); record_with_id PyNone;
          record_with_id (PyStr "b")]
  = [record_with_id (PyStr "a"); record_with_id (PyStr "b")].
Proof.
  split_and!.
  - apply dedupe_first_occurrences.
  - rewrite dedupe_first_occurrences. apply first_occurrences_sublist.
  - by vm_compute.
Qed.

(** C8: deduplication is idempotent. *)
Theorem dedupe_idempotent (records : list ListingRecord) :
  dedupe (dedupe records) = dedupe records.
Proof. apply dedupe_fixed, dedupe_unique. Qed.

(** C9: a call that fails contributes no record, every (section, category)
    pair is still queried, and for each category the records accumulated
    are exactly those of the calls that did not fail, in order; the final
    result set holds their deduplication, and [get_all_results] returns
    whenever the partitioner does. *)
Theorem fetch_failure_is_isolated {World : Type} (pyzill : @pyzill_module World)
    (self : ZillowScraper) (proxy_url : option string)
    (sections : list Section_) (w : World) (category : string) :
  let log := fetch_log pyzill proxy_url (calls self sections) w in
  let collected :=
    collect_sections pyzill self proxy_url sections (empty_results self, w) in
  category ∈ categories self →
  (∀ box zoom_value c w0,
     (fetch pyzill proxy_url box zoom_value c w0).1 = Raised →
     (get_results_for_box pyzill proxy_url box zoom_value c w0).1 = []) ∧
  length log = (length sections * length (categories self))%nat ∧
  collected.1 !! category = Some (accumulated log category) ∧
  remove_duplicates self collected.1 !! category
  = Some (dedupe (accumulated log category)) ∧
  ∀ north east south west initial_zoom,
    calculate_zoom_sections self north east south west initial_zoom = Ok sections →
    get_all_results pyzill self proxy_url north east south west initial_zoom w
    = Ok (remove_duplicates self collected.1, collected.2).
Proof.
  intros log collected Hc. split_and!.
  - intros box zoom_value c w0 H. rewrite get_results_for_box_fetch. simpl.
    by rewrite H.
  - subst log. by rewrite fetch_log_length, calls_length.
  - by apply collect_sections_lookup.
  - rewrite remove_duplicates_lookup by done.
    rewrite lookup_total_alt. subst collected log.
    by rewrite collect_sections_lookup.
  - intros north east south west initial_zoom E. unfold get_all_results.
    rewrite E. simpl. fold collected. by destruct collected.
Qed.

Lemma fetch_failure_is_isolated_witness :
  let sec1 := {| ne_lat := 1; sw_lat := 0; ne_long := 1; sw_long := 0; zoom := 15 |} in
  let sec2 := {| ne_lat := 2; sw_lat := 1; ne_long := 1; sw_long := 0; zoom := 15 |} in
  (collect_sections flaky_pyzill (init (2, 5)%Z) None [sec1; sec2]
     (empty_results (init (2, 5)%Z), 0%nat)).1 !! "for_sale"
  = Some [record_with_id (PyInt 3)].
Proof.
  intros sec1 sec2.
  destruct (fetch_failure_is_isolated flaky_pyzill (init (2, 5)%Z) None [sec1; sec2]
              0%nat "for_sale") as (_ & _ & H & _).
  - by left.
  - exact H.
Defined.

(** C10: in the result set [get_all_results] returns, the records of every
    category have non-empty identifiers, pairwise distinct within the
    category. *)
Theorem final_records_unique {World : Type} (pyzill : @pyzill_module World)
    (self : ZillowScraper) (proxy_url : option string)
    north east south west initial_zoom (w w' : World)
    (all_results : ResultSet) (category : string) (records : list ListingRecord) :
  get_all_results pyzill self proxy_url north east south west initial_zoom w
  = Ok (all_results, w') →
  all_results !! category = Some records →
  Forall (λ r, truthy (zpid_of r) = true) records ∧ NoDup (zpid_of <$> records).
Proof.
  unfold get_all_results.
  destruct (calculate_zoom_sections _ _ _ _ _ _) as [sections|]; [|done]. simpl.
  destruct (collect_sections _ _ _ _ _) as [collected w1] eqn:E.
  intros [= <- <-] Hrec.
  destruct (decide (category ∈ categories self)) as [Hin|Hnin].
  - rewrite remove_duplicates_lookup in Hrec by done. simplify_eq.
    apply dedupe_unique.
  - rewrite remove_duplicates_other in Hrec by done.
    assert (is_Some (empty_results self !! category)) as [l Hl].
    { apply (collect_sections_dom pyzill self proxy_url sections (empty_results self, w)).
      rewrite E. simpl. eauto. }
    unfold empty_results in Hl. rewrite init_loop in Hl.
    by rewrite decide_False in Hl by done.
Qed.

Lemma final_records_unique_witness :
  NoDup (zpid_of <$> [record_with_id (PyInt 2)]).
Proof.
  refine (proj2 (final_records_unique flaky_pyzill (init (2, 5)%Z) None
            0.01 0.01 0 0 13%Z 0%nat 3%nat
            {[ "for_sale" := []; "for_rent" := [record_with_id (PyInt 1)];
               "sold" := [record_with_id (PyInt 2)] ]}
            "sold" [record_with_id (PyInt 2)] _ _)).
  - by vm_compute.
  - by vm_compute.
Defined.

End CollectorClaims.
